(** * Universal Trakt Scrobbler: the history reconciliation core

    A shallow embedding of [src/apis/ServiceApi.ts]: the cache-key
    derivation ([getTraktCacheStr], [getTraktCacheId]), the per-item
    catalog resolution ([loadTraktItemHistory], [loadTraktHistory]),
    the paging engine ([loadHistory]) and the registry of services;
    and of the change handler of
    [src/modules/history/pages/OptionsPage.js].

    Conventions of the embedding:
    - a JS string is a [string] of 8-bit characters; [toLowerCase] and
      the class [\w] are the ASCII ones (characters above 127 are left
      alone by the former and are outside the latter);
    - a JS number that the code only counts with or prints is a [Z];
    - an optional field ([year?], [season?], ...) is an [option];
    - a [Record<string, V>] used as a dictionary is a [gmap string V];
    - a rejected promise / thrown exception is the left summand of a
      [result]; an [await] is sequencing in that monad. *)

From Stdlib Require Import ZArith String Ascii List Lia DecimalString.
From stdpp Require Import base option list gmap strings.
Import ListNotations.

Local Open Scope string_scope.

(** ** Strings *)

Module Str.

(** [\w] of a JS regular expression without the [u] flag:
    [A-Za-z0-9_]. *)
Definition is_word (c : ascii) : bool :=
  let n := nat_of_ascii c in
  ((48 <=? n)%nat && (n <=? 57)%nat)
  || ((65 <=? n)%nat && (n <=? 90)%nat)
  || ((97 <=? n)%nat && (n <=? 122)%nat)
  || (n =? 95)%nat.

Definition dash : ascii := "-"%char.

Definition lower_char (c : ascii) : ascii :=
  let n := nat_of_ascii c in
  if ((65 <=? n)%nat && (n <=? 90)%nat)%bool then ascii_of_nat (n + 32) else c.

(** [s.toLowerCase()] *)
Fixpoint toLowerCase (s : string) : string :=
  match s with
  | EmptyString => EmptyString
  | String c r => String (lower_char c) (toLowerCase r)
  end.

(** [s.replace(/[^\w]/g, '-')] *)
Fixpoint replace_non_word (s : string) : string :=
  match s with
  | EmptyString => EmptyString
  | String c r =>
      String (if is_word c then c else dash) (replace_non_word r)
  end.

(** [s.replace(/-+/g, '-')]: scanning left to right, a maximal run of
    dashes is one match; [after_dash] tells that the character before
    the current one belonged to the run being replaced. *)
Fixpoint replace_dash_runs_from (after_dash : bool) (s : string) : string :=
  match s with
  | EmptyString => EmptyString
  | String c r =>
      if Ascii.eqb c dash
      then if after_dash
           then replace_dash_runs_from true r
           else String dash (replace_dash_runs_from true r)
      else String c (replace_dash_runs_from false r)
  end.

Definition replace_dash_runs (s : string) : string :=
  replace_dash_runs_from false s.

(** The template-literal rendering of an integer: [`${n}`]. *)
Definition of_Z (n : Z) : string :=
  NilZero.string_of_int (Z.to_int n).

End Str.

(** ** Data model *)

Inductive ItemType := Show | Movie.

(** A resolved catalog identity ([TraktItem]); only [watchedAt] is
    inspected by the code under study, the identity is kept abstract as
    a numeric id. *)
Record TraktItem := {
  traktId : Z;
  watchedAt : option Z
}.

(** [item.trakt] is read with [typeof ... === 'undefined'] in one place
    and by truthiness in another, so [undefined] and [null] are kept
    apart. *)
Inductive TraktField :=
| TUndefined
| TNull
| TValue (t : TraktItem).

Record Item := {
  itemType : ItemType;
  title : string;
  year : option Z;
  season : option Z;
  episode : option Z;
  episodeTitle : option string;
  databaseId : string;           (* item.getDatabaseId() *)
  trakt : TraktField
}.

Definition set_trakt (item : Item) (t : TraktField) : Item :=
  {| itemType := itemType item; title := title item; year := year item;
     season := season item; episode := episode item;
     episodeTitle := episodeTitle item; databaseId := databaseId item;
     trakt := t |}.

(** [x ?? d] *)
Definition nullish {A} (x : option A) (d : A) : A :=
  match x with Some v => v | None => d end.

(** Truthiness of an optional number: present and not zero. *)
Definition truthy_num (x : option Z) : bool :=
  match x with Some v => negb (v =? 0)%Z | None => false end.

(** ** Cache keys *)

Module ServiceApi.

Definition getTraktCacheStr (title : string) : string :=
  Str.replace_dash_runs (Str.replace_non_word (Str.toLowerCase title)).

Definition getTraktCacheId (item : Item) : string :=
  match itemType item with
  | Show =>
      "/shows/" ++ getTraktCacheStr (title item)
      ++ "/seasons/" ++ Str.of_Z (nullish (season item) 0%Z)
      ++ "/episodes/"
      ++ match episode item with
         | Some e => Str.of_Z e
         | None => getTraktCacheStr (nullish (episodeTitle item) "0")
         end
  | Movie =>
      "/movies/" ++ getTraktCacheStr (title item)
      ++ (if truthy_num (year item)
          then "-" ++ Str.of_Z (nullish (year item) 0%Z)
          else "")
  end.

End ServiceApi.

(** ** Errors and promises *)

(** What the [catch] blocks look at: [(err as RequestException).canceled]. *)
Record Error := {
  canceled : bool;
  message : string
}.

(** The settled state of a promise: fulfilled with a value or rejected
    with an error. *)
Inductive result (A : Type) :=
| Ok (a : A)
| Err (e : Error).
Arguments Ok {A} a.
Arguments Err {A} e.

Definition bind {A B} (r : result A) (k : A -> result B) : result B :=
  match r with
  | Ok a => k a
  | Err e => Err e
  end.

Definition is_ok {A} (r : result A) : bool :=
  match r with Ok _ => true | Err _ => false end.

(** [await Promise.all(promises)]: rejected as soon as one of the
    promises is, fulfilled when all of them are. *)
Fixpoint Promise_all {A} (ps : list (result A)) : result (list A) :=
  match ps with
  | [] => Ok []
  | p :: rest =>
      match p with
      | Err e => Err e
      | Ok a => bind (Promise_all rest) (fun xs => Ok (a :: xs))
      end
  end.

(** ** The sync store and the observable calls *)

Record SyncData := {
  items : list Item;
  hasReachedEnd : bool;
  hasReachedLastSyncDate : bool
}.

Inductive Event :=
| CallLoadHistoryItems                       (* this.loadHistoryItems() *)
| CallConvertHistoryItems (n : nat)          (* this.convertHistoryItems(historyItems) *)
| CallSetData (d : SyncData)                 (* store.setData(d) *)
| CallStorageGet                             (* BrowserStorage.get(...) *)
| CallStorageSet                             (* BrowserStorage.set({ traktCache }, false) *)
| ErrorsError (msg : string) (e : Error)     (* Errors.error(msg, e) *)
| Dispatch (name : string) (e : Error).      (* EventDispatcher.dispatch(name, null, { error }) *)

Definition is_report (ev : Event) : bool :=
  match ev with
  | ErrorsError _ _ | Dispatch _ _ => true
  | _ => false
  end.

Definition is_setData (ev : Event) : bool :=
  match ev with CallSetData _ => true | _ => false end.

Definition is_fetch (ev : Event) : bool :=
  match ev with CallLoadHistoryItems => true | _ => false end.

Definition count_fetches (l : list Event) : nat :=
  length (filter (fun ev => is_fetch ev = true) l).

(** Calls among which there is neither a report to the error channel
    nor a write to the sync store. *)
Definition quiet (evs : list Event) : Prop :=
  Forall (fun ev => is_report ev = false /\ is_setData ev = false) evs.

(** ** Catalog resolution pipeline *)

Section Resolution.

(** The collaborators of [@apis/TraktSearch], [@apis/TraktSync],
    [@models/TraktItem] and [@apis/CorrectionApi] are outside the
    sources at hand and enter as parameters. *)
Context {Suggestion SavedTraktItem : Type}.

(** [TraktSearch.find(item, correction)] *)
Variable TraktSearch_find : Item -> option Suggestion -> result TraktField.

(** [TraktSync.loadHistory(item)]: writes [item.trakt.watchedAt] in
    place and may reject; the first component is the value of
    [watchedAt] the call leaves behind, whether it rejects or not. *)
Variable TraktSync_loadHistory : Item -> option Z * result unit.

(** [TraktItem.load] and [TraktItem.save] *)
Variable TraktItem_load : SavedTraktItem -> TraktItem.
Variable TraktItem_save : TraktItem -> SavedTraktItem.

(** What one call of [loadTraktItemHistory] leaves behind: the item
    as mutated, the assignment to [traktCache[cacheId]] if it made
    one, and the state of the promise it returned. *)
Record ItemRun := {
  run_item : Item;
  run_write : option (string * SavedTraktItem);
  run_promise : result unit
}.

Definition truthy_trakt (t : TraktField) : bool :=
  match t with TValue _ => true | _ => false end.

Definition set_watchedAt (t : TraktItem) (w : option Z) : TraktItem :=
  {| traktId := traktId t; watchedAt := w |}.

(** Second statement of the [try] block. *)
Definition load_watched (cacheId : string) (item : Item) : ItemRun :=
  match trakt item with
  | TValue t =>
      match watchedAt t with
      | None =>
          let '(w, r) := TraktSync_loadHistory item in
          let t' := set_watchedAt t w in
          let item' := set_trakt item (TValue t') in
          match r with
          | Err e => {| run_item := item'; run_write := None; run_promise := Err e |}
          | Ok _ =>
              {| run_item := item';
                 run_write := Some (cacheId, TraktItem_save t');
                 run_promise := Ok tt |}
          end
      | Some _ => {| run_item := item; run_write := None; run_promise := Ok tt |}
      end
  | _ => {| run_item := item; run_write := None; run_promise := Ok tt |}
  end.

(** How [item.trakt] is obtained when the item has none. *)
Inductive Source :=
| FromSearch (correction : option Suggestion)
| FromCache (cacheItem : SavedTraktItem).

Definition choose_source (cacheItem : option SavedTraktItem)
    (correction : option Suggestion) : Source :=
  match correction, cacheItem with
  | Some c, _ => FromSearch (Some c)
  | None, None => FromSearch None
  | None, Some saved => FromCache saved
  end.

(** The [try] block of [loadTraktItemHistory]. *)
Definition loadTraktItemHistory_try (item : Item)
    (traktCache : gmap string SavedTraktItem)
    (correction : option Suggestion) : ItemRun :=
  let cacheId := ServiceApi.getTraktCacheId item in
  if truthy_trakt (trakt item) then load_watched cacheId item
  else
    let cacheItem := traktCache !! cacheId in
    match choose_source cacheItem correction with
    | FromSearch c =>
        match TraktSearch_find item c with
        | Err e => {| run_item := item; run_write := None; run_promise := Err e |}
        | Ok t => load_watched cacheId (set_trakt item t)
        end
    | FromCache saved =>
        load_watched cacheId (set_trakt item (TValue (TraktItem_load saved)))
    end.

(** [delete item.trakt.watchedAt] under [if (item.trakt)]. *)
Definition discard_watchedAt (item : Item) : Item :=
  match trakt item with
  | TValue t => set_trakt item (TValue (set_watchedAt t None))
  | _ => item
  end.

Definition loadTraktItemHistory (item : Item)
    (traktCache : gmap string SavedTraktItem)
    (correction : option Suggestion) : ItemRun :=
  let r := loadTraktItemHistory_try item traktCache correction in
  match run_promise r with
  | Ok _ => r
  | Err _ =>
      {| run_item := discard_watchedAt (run_item r);
         run_write := run_write r;
         run_promise := Ok tt |}
  end.

(** The predicate of [items.filter(...)] in [loadTraktHistory]. *)
Definition is_missing (item : Item) : bool :=
  match trakt item with
  | TUndefined => true
  | TNull => false
  | TValue t => match watchedAt t with None => true | Some _ => false end
  end.

Record Storage := {
  corrections : option (gmap string Suggestion);
  traktCache : option (gmap string SavedTraktItem)
}.

(** The browser storage with the faults its two calls may raise. *)
Record Browser := {
  storage : Storage;
  get_fault : option Error;
  set_fault : option Error
}.

(** [corrections?.[databaseId]] *)
Definition lookup_correction (cs : option (gmap string Suggestion))
    (databaseId : string) : option Suggestion :=
  match cs with
  | Some m => m !! databaseId
  | None => None
  end.

Definition apply_write (cache : gmap string SavedTraktItem)
    (w : option (string * SavedTraktItem)) : gmap string SavedTraktItem :=
  match w with
  | Some (k, v) => <[k := v]> cache
  | None => cache
  end.

(** The calls pushed by the [for] loop.  Each call runs up to its
    first [await] before the next one starts, and every read of
    [traktCache] sits before the first [await] while every write sits
    after one: all calls read the cache as it was loaded. *)
Definition fan_out (cs : option (gmap string Suggestion))
    (cache : gmap string SavedTraktItem) (missingItems : list Item)
    : list ItemRun :=
  map (fun item =>
         loadTraktItemHistory item cache
           (lookup_correction cs (databaseId item)))
      missingItems.

(** The items of the caller after the batch: the missing ones are
    the objects the calls mutated. *)
Definition settle (cs : option (gmap string Suggestion))
    (cache : gmap string SavedTraktItem) (its : list Item) : list Item :=
  map (fun item =>
         if is_missing item
         then run_item (loadTraktItemHistory item cache
                          (lookup_correction cs (databaseId item)))
         else item)
      its.

Definition report_unless_canceled (msg name : string) (e : Error)
    : list Event :=
  if canceled e then [] else [ErrorsError msg e; Dispatch name e].

Record BatchOutcome := {
  out_items : list Item;
  out_browser : Browser;
  out_log : list Event;
  out_promise : result unit
}.

Definition with_cache (b : Browser) (cache : gmap string SavedTraktItem)
    : Browser :=
  {| storage := {| corrections := corrections (storage b);
                   traktCache := Some cache |};
     get_fault := get_fault b; set_fault := set_fault b |}.

(** [ServiceApi.loadTraktHistory(items)].  Writes of several calls to
    one cache key land in the order the calls finish; the model takes
    the order of the batch. *)
Definition loadTraktHistory (its : list Item) (b : Browser) : BatchOutcome :=
  let missingItems := filter (fun item => is_missing item = true) its in
  if (length missingItems =? 0)%nat then
    {| out_items := its; out_browser := b; out_log := []; out_promise := Ok tt |}
  else
    let caught e log its' b' :=
      {| out_items := its'; out_browser := b';
         out_log := log ++ report_unless_canceled
                      "Failed to load Trakt history."
                      "TRAKT_HISTORY_LOAD_ERROR" e;
         out_promise := Ok tt |} in
    match get_fault b with
    | Some e => caught e [CallStorageGet] its b
    | None =>
        let cs := corrections (storage b) in
        let cache := nullish (traktCache (storage b)) ∅ in
        let runs := fan_out cs cache missingItems in
        let its' := settle cs cache its in
        match Promise_all (map run_promise runs) with
        | Err e => caught e [CallStorageGet] its' b
        | Ok _ =>
            let cache' := foldl apply_write cache (map run_write runs) in
            match set_fault b with
            | Some e => caught e [CallStorageGet; CallStorageSet] its' b
            | None =>
                {| out_items := its';
                   out_browser := with_cache b cache';
                   out_log := [CallStorageGet; CallStorageSet];
                   out_promise := Ok tt |}
            end
        end
    end.

End Resolution.

Arguments ItemRun : clear implicits.
Arguments Storage : clear implicits.
Arguments Browser : clear implicits.
Arguments BatchOutcome : clear implicits.

(** ** History reconciliation engine *)

(** The three methods a streaming service overrides.  [S] is whatever
    the subclass keeps between calls (a page cursor, say).
    [loadHistoryItems] may assign [this.hasReachedHistoryEnd]: it
    receives the flag and returns it along with its own state, whether
    its promise is fulfilled or rejected.  [leftoverHistoryItems] is
    [private] to the base class and out of its reach. *)
Class Service (Raw S : Type) := {
  loadHistoryItems : S -> bool -> S * bool * result (list Raw);
  isNewHistoryItem : Raw -> Z -> string -> bool;
  convertHistoryItems : list Raw -> result (list Item)
}.

(** The defaults of the abstract class [ServiceApi]. *)
Definition base_service (Raw S : Type) : Service Raw S := {|
  loadHistoryItems := fun s ended => (s, ended, Ok []);
  isNewHistoryItem := fun _ _ _ => true;
  convertHistoryItems := fun _ => Ok []
|}.

Section Engine.

Context {Raw S : Type} (svc : Service Raw S).

(** The mutable fields of a [ServiceApi] instance. *)
Record Instance := {
  leftoverHistoryItems : list Raw;
  hasReachedHistoryEnd : bool;
  subclass : S
}.

(** Everything [loadHistory] can touch: the instance, the data of
    its sync store, and the calls made so far. *)
Record World := {
  this : Instance;
  store : SyncData;
  log : list Event
}.

(** The [let]/[const] variables of [loadHistory] that live across
    iterations ([itemsToLoad] is a parameter the loop assigns to). *)
Record Locals := {
  itemsToLoad : Z;
  l_hasReachedEnd : bool;
  l_hasReachedLastSyncDate : bool;
  historyItems : list Raw
}.

Definition emit (w : World) (evs : list Event) : World :=
  {| this := this w; store := store w; log := log w ++ evs |}.

Definition set_this (w : World) (i : Instance) : World :=
  {| this := i; store := store w; log := log w |}.

Definition set_leftover (w : World) (l : list Raw) : World :=
  set_this w {| leftoverHistoryItems := l;
                hasReachedHistoryEnd := hasReachedHistoryEnd (this w);
                subclass := subclass (this w) |}.

(** Lines 115-121: where [responseItems] comes from. *)
Definition source_page (w : World) : World * result (list Raw) :=
  let i := this w in
  if (0 <? length (leftoverHistoryItems i))%nat then
    (set_leftover w [], Ok (leftoverHistoryItems i))
  else if negb (hasReachedHistoryEnd i) then
    let '(s', ended', r) :=
      loadHistoryItems (subclass i) (hasReachedHistoryEnd i) in
    (emit (set_this w {| leftoverHistoryItems := leftoverHistoryItems i;
                         hasReachedHistoryEnd := ended';
                         subclass := s' |})
          [CallLoadHistoryItems],
     r)
  else (w, Ok []).

(** Lines 125-133: the [for ... of responseItems.entries()] loop.
    [rest] is what is still to be visited, [index] the position of
    its head in [responseItems]; the second component is the value
    assigned to [this.leftoverHistoryItems] when the loop breaks. *)
Fixpoint scan (lastSync : Z) (lastSyncId : string)
    (responseItems : list Raw) (index : nat) (rest filteredItems : list Raw)
    : list Raw * option (list Raw) :=
  match rest with
  | [] => (filteredItems, None)
  | responseItem :: rest' =>
      if isNewHistoryItem responseItem lastSync lastSyncId
      then scan lastSync lastSyncId responseItems (Datatypes.S index) rest'
             (filteredItems ++ [responseItem])%list
      else (filteredItems, Some (drop index responseItems))
  end.

(** [lastSync > 0 && lastSyncId] *)
Definition watermark_set (lastSync : Z) (lastSyncId : string) : bool :=
  (0 <? lastSync)%Z && negb (String.eqb lastSyncId "").

(** Lines 123-136: [filteredItems] and the break of the scan. *)
Definition filter_page (lastSync : Z) (lastSyncId : string)
    (responseItems : list Raw) : list Raw * option (list Raw) :=
  if watermark_set lastSync lastSyncId
  then scan lastSync lastSyncId responseItems 0 responseItems []
  else (responseItems, None).

(** Lines 122-140, given the page. *)
Definition process_page (lastSync : Z) (lastSyncId : string)
    (responseItems : list Raw) (w : World) (l : Locals) : World * Locals :=
  let '(w1, toLoad, reachedSync, hist) :=
    if (0 <? length responseItems)%nat then
      let '(filteredItems, stop) := filter_page lastSync lastSyncId responseItems in
      (match stop with
       | Some rest => set_leftover w rest
       | None => w
       end,
       (itemsToLoad l - Z.of_nat (length filteredItems))%Z,
       match stop with
       | Some _ => true
       | None => l_hasReachedLastSyncDate l
       end,
       (historyItems l ++ filteredItems)%list)
    else (w, itemsToLoad l, l_hasReachedLastSyncDate l, historyItems l) in
  (w1,
   {| itemsToLoad := toLoad;
      l_hasReachedEnd := hasReachedHistoryEnd (this w1) || reachedSync;
      l_hasReachedLastSyncDate := reachedSync;
      historyItems := hist |}).

(** One pass through the body of the [do ... while]. *)
Definition loop_body (lastSync : Z) (lastSyncId : string)
    (w : World) (l : Locals) : World * result Locals :=
  match source_page w with
  | (w1, Err e) => (w1, Err e)
  | (w1, Ok responseItems) =>
      let '(w2, l') := process_page lastSync lastSyncId responseItems w1 l in
      (w2, Ok l')
  end.

(** [while (!hasReachedEnd && itemsToLoad > 0)] *)
Definition loop_again (l : Locals) : bool :=
  negb (l_hasReachedEnd l) && (0 <? itemsToLoad l)%Z.

(** The [do ... while] loop; [None] only when [fuel] passes through
    the body did not reach the end of the loop. *)
Fixpoint history_loop (fuel : nat) (lastSync : Z) (lastSyncId : string)
    (w : World) (l : Locals) : option (World * result Locals) :=
  match fuel with
  | O => None
  | Datatypes.S fuel' =>
      match loop_body lastSync lastSyncId w l with
      | (w', Err e) => Some (w', Err e)
      | (w', Ok l') =>
          if loop_again l'
          then history_loop fuel' lastSync lastSyncId w' l'
          else Some (w', Ok l')
      end
  end.

(** [store.setData({ items, hasReachedEnd, hasReachedLastSyncDate })] *)
Definition setData (w : World) (d : SyncData) : World :=
  {| this := this w; store := d; log := log w ++ [CallSetData d] |}.

(** Lines 142-145: what follows the loop inside the [try]. *)
Definition finish (w : World) (l : Locals) : World * result unit :=
  let '(w1, converted) :=
    if (0 <? length (historyItems l))%nat then
      (emit w [CallConvertHistoryItems (length (historyItems l))],
       convertHistoryItems (historyItems l))
    else (w, Ok []) in
  match converted with
  | Err e => (w1, Err e)
  | Ok its =>
      (setData w1 {| items := its;
                     hasReachedEnd := l_hasReachedEnd l;
                     hasReachedLastSyncDate := l_hasReachedLastSyncDate l |},
       Ok tt)
  end.

Definition initial_locals (n : Z) (w : World) : Locals :=
  {| itemsToLoad := n;
     l_hasReachedEnd := hasReachedEnd (store w);
     l_hasReachedLastSyncDate := hasReachedLastSyncDate (store w);
     historyItems := [] |}.

(** The [try] block of [loadHistory]. *)
Definition loadHistory_try (fuel : nat) (n lastSync : Z)
    (lastSyncId : string) (w : World) : option (World * result unit) :=
  match history_loop fuel lastSync lastSyncId w (initial_locals n w) with
  | None => None
  | Some (w', Err e) => Some (w', Err e)
  | Some (w', Ok l) => Some (finish w' l)
  end.

(** The [catch] block: report unless canceled, then rethrow. *)
Definition loadHistory_catch (w : World) (e : Error) : World * result unit :=
  (emit w (if canceled e then []
           else [ErrorsError "Failed to load history." e;
                 Dispatch "SERVICE_HISTORY_LOAD_ERROR" e]),
   Err e).

(** [loadHistory(itemsToLoad, lastSync, lastSyncId)]: the world it
    leaves and the state of the promise it returns. *)
Definition loadHistory (fuel : nat) (n lastSync : Z)
    (lastSyncId : string) (w : World) : option (World * result unit) :=
  match loadHistory_try fuel n lastSync lastSyncId w with
  | None => None
  | Some (w', Err e) => Some (loadHistory_catch w' e)
  | Some (w', Ok u) => Some (w', Ok u)
  end.

(** The body of the loop applied [k] times, while it asks for
    another pass. *)
Fixpoint passes (k : nat) (lastSync : Z) (lastSyncId : string)
    (w : World) (l : Locals) : option (World * Locals) :=
  match k with
  | O => Some (w, l)
  | Datatypes.S k' =>
      match loop_body lastSync lastSyncId w l with
      | (w', Ok l') =>
          if loop_again l' then passes k' lastSync lastSyncId w' l' else None
      | (_, Err _) => None
      end
  end.

End Engine.

Arguments Instance : clear implicits.
Arguments World : clear implicits.
Arguments Locals : clear implicits.

(** ** The cache key as the specification words it *)

Module Claimed.

(** "lowercase, replace every run of non-word characters with a
    single [-]": [in_run] tells that the previous character was a
    non-word one, already answered for by a dash. *)
Fixpoint replace_runs_from (in_run : bool) (s : string) : string :=
  match s with
  | EmptyString => EmptyString
  | String c r =>
      if Str.is_word c then String c (replace_runs_from false r)
      else if in_run then replace_runs_from true r
           else String Str.dash (replace_runs_from true r)
  end.

Definition slug (s : string) : string :=
  replace_runs_from false (Str.toLowerCase s).

(** The movie and show keys with the year suffix "exactly when year
    is present". *)
Definition cacheKey (item : Item) : string :=
  match itemType item with
  | Show =>
      "/shows/" ++ ServiceApi.getTraktCacheStr (title item)
      ++ "/seasons/" ++ Str.of_Z (nullish (season item) 0%Z)
      ++ "/episodes/"
      ++ match episode item with
         | Some e => Str.of_Z e
         | None =>
             ServiceApi.getTraktCacheStr (nullish (episodeTitle item) "0")
         end
  | Movie =>
      "/movies/" ++ ServiceApi.getTraktCacheStr (title item)
      ++ match year item with
         | Some y => "-" ++ Str.of_Z y
         | None => ""
         end
  end.

End Claimed.

(** ** Fixtures: concrete items and services to run the code on *)

Module Fixture.

Definition movie (t : string) (y : option Z) : Item :=
  {| itemType := Movie; title := t; year := y; season := None;
     episode := None; episodeTitle := None; databaseId := "db-" ++ t;
     trakt := TUndefined |}.

Definition show (t : string) (s e : option Z) (et : option string) : Item :=
  {| itemType := Show; title := t; year := None; season := s;
     episode := e; episodeTitle := et; databaseId := "db-" ++ t;
     trakt := TUndefined |}.

(** A raw history entry of a service: when it was watched and its id. *)
Record Entry := { at_ : Z; eid : string }.

Definition entry_item (x : Entry) : Item := movie (eid x) None.

(** A service that serves a fixed list of pages, newest first, and
    raises its end flag with the last one. *)
Definition paged : Service Entry (list (list Entry)) := {|
  loadHistoryItems := fun pages ended =>
    match pages with
    | [] => ([], true, Ok [])
    | [p] => ([], true, Ok p)
    | p :: rest => (rest, ended, Ok p)
    end;
  isNewHistoryItem := fun x lastSync _ => (lastSync <? at_ x)%Z;
  convertHistoryItems := fun xs => Ok (map entry_item xs)
|}.

(** A service whose page fetch is rejected with [e]. *)
Definition fetch_fails (e : Error) : Service Entry (list (list Entry)) := {|
  loadHistoryItems := fun pages ended => (pages, ended, Err e);
  isNewHistoryItem := fun x lastSync _ => (lastSync <? at_ x)%Z;
  convertHistoryItems := fun xs => Ok (map entry_item xs)
|}.

Definition e1 := {| at_ := 1; eid := "e1" |}.
Definition e2 := {| at_ := 2; eid := "e2" |}.
Definition e3 := {| at_ := 3; eid := "e3" |}.
Definition e4 := {| at_ := 4; eid := "e4" |}.
Definition e5 := {| at_ := 5; eid := "e5" |}.

Definition empty_store : SyncData :=
  {| items := []; hasReachedEnd := false; hasReachedLastSyncDate := false |}.

Definition fresh {Raw S} (left : list Raw) (s : S) : World Raw S :=
  {| this := {| leftoverHistoryItems := left;
                hasReachedHistoryEnd := false;
                subclass := s |};
     store := empty_store;
     log := [] |}.

Definition feed : World Entry (list (list Entry)) :=
  fresh [] [[e5; e4; e3]; [e2; e1]].

Definition abort : Error := {| canceled := true; message := "aborted" |}.
Definition http500 : Error := {| canceled := false; message := "500" |}.

(** Collaborators of the resolution pipeline: corrections name the
    catalog id directly, a search without correction finds id 7 and
    fails on the title "lost", the watched date is always 100. *)
Definition find (item : Item) (c : option Z) : result TraktField :=
  match c with
  | Some id => Ok (TValue {| traktId := id; watchedAt := None |})
  | None =>
      if String.eqb (title item) "lost" then Err http500
      else Ok (TValue {| traktId := 7; watchedAt := None |})
  end.

Definition sync (item : Item) : option Z * result unit :=
  (Some 100%Z, Ok tt).

Definition resolve :=
  loadTraktItemHistory_try find sync (fun t : TraktItem => t) (fun t => t).

Definition batch :=
  loadTraktHistory find sync (fun t : TraktItem => t) (fun t => t).

Definition browser (st : Storage Z TraktItem) : Browser Z TraktItem :=
  {| storage := st; get_fault := None; set_fault := None |}.

Definition no_storage : Storage Z TraktItem :=
  {| corrections := None; traktCache := None |}.

Definition up : Item := movie "Up" (Some 2009%Z).

(** A cache that knows "Up" under its key, under another catalog id
    than the correction 42 names. *)
Definition cache_up : gmap string TraktItem :=
  {[ "/movies/up-2009" := {| traktId := 9; watchedAt := Some 50%Z |} ]}.

(** Three items, the search for the second of which fails. *)
Definition three : list Item :=
  [movie "Up" None; movie "lost" None; movie "Heat" None].

Definition found (item : Item) (id w : Z) : Item :=
  set_trakt item (TValue {| traktId := id; watchedAt := Some w |}).

(** A world in which a previous call left [e3] and [e2] behind. *)
Definition resumed : World Entry (list (list Entry)) :=
  fresh [e3; e2] [[e1]].

Definition locals0 (n : Z) : Locals Entry :=
  {| itemsToLoad := n; l_hasReachedEnd := false;
     l_hasReachedLastSyncDate := false; historyItems := [] |}.

Definition idle : World unit unit := fresh [] tt.

(** [feed] after its first page has been fetched. *)
Definition fetched : World Entry (list (list Entry)) :=
  {| this := {| leftoverHistoryItems := [];
                hasReachedHistoryEnd := false;
                subclass := [[e2; e1]] |};
     store := empty_store;
     log := [CallLoadHistoryItems] |}.

(** [feed] after a fetch that was rejected. *)
Definition rejected : World Entry (list (list Entry)) :=
  {| this := this feed; store := empty_store; log := [CallLoadHistoryItems] |}.

(** The locals after a first pass that accepted the whole first page
    against a target of two. *)
Definition overshot : Locals Entry :=
  {| itemsToLoad := (-1)%Z; l_hasReachedEnd := false;
     l_hasReachedLastSyncDate := false; historyItems := [e5; e4; e3] |}.

(** What the sync store holds after the scenario of the watermark
    [(3, "e3")]. *)
Definition synced : SyncData :=
  {| items := [entry_item e5; entry_item e4];
     hasReachedEnd := true; hasReachedLastSyncDate := true |}.

End Fixture.

(** ** The registry of services *)

(** [const serviceApis = new Map<string, ServiceApi>()] is threaded
    through its two accessors. *)
Definition registerServiceApi {A} (id : string) (api : A)
    (serviceApis : gmap string A) : gmap string A :=
  <[id := api]> serviceApis.

(** [throw new Error(...)]: a plain [Error] has no [canceled]
    property, which reads as false. *)
Definition getServiceApi {A} (id : string) (serviceApis : gmap string A)
    : result A :=
  match serviceApis !! id with
  | Some api => Ok api
  | None => Err {| canceled := false;
                   message := "API not registered for " ++ id |}
  end.

(** [constructor(id)]: the field initialisers, then the registration. *)
Definition new_ServiceApi {Raw S} (id : string) (s : S)
    (serviceApis : gmap string (Instance Raw S))
    : Instance Raw S * gmap string (Instance Raw S) :=
  let api := {| leftoverHistoryItems := [];
                hasReachedHistoryEnd := false;
                subclass := s |} in
  (api, registerServiceApi id api serviceApis).

(** ** Shapes of slugs *)

Definition is_upper (c : ascii) : bool :=
  let n := nat_of_ascii c in (65 <=? n)%nat && (n <=? 90)%nat.

(** The characters a slug is made of: [a-z0-9_] and the dash. *)
Definition slug_char (c : ascii) : bool :=
  (Str.is_word c && negb (is_upper c)) || Ascii.eqb c Str.dash.

Fixpoint all_chars (p : ascii -> bool) (s : string) : bool :=
  match s with
  | EmptyString => true
  | String c r => p c && all_chars p r
  end.

(** No dash follows a dash; [after_dash] tells that the character
    before the string was one. *)
Fixpoint single_dashes_from (after_dash : bool) (s : string) : bool :=
  match s with
  | EmptyString => true
  | String c r =>
      if Ascii.eqb c Str.dash
      then negb after_dash && single_dashes_from true r
      else single_dashes_from false r
  end.

Definition single_dashes (s : string) : bool := single_dashes_from false s.

(** ** The options page *)

Module OptionsPage.

(** A JS object read as a dictionary whose keys are neither array
    indices nor names inherited from [Object.prototype]: its own
    properties in insertion order, each key once. *)
Fixpoint obj_get {V} (k : string) (o : list (string * V)) : option V :=
  match o with
  | [] => None
  | (k', v) :: r => if String.eqb k' k then Some v else obj_get k r
  end.

(** [o[k] = v]: an existing property keeps its place, a new one goes
    last. *)
Fixpoint obj_set {V} (k : string) (v : V) (o : list (string * V))
    : list (string * V) :=
  match o with
  | [] => [(k, v)]
  | (k', v') :: r =>
      if String.eqb k' k then (k', v) :: r else (k', v') :: obj_set k v r
  end.

(** [Object.values(o)] *)
Definition obj_values {V} (o : list (string * V)) : list V := map snd o.

(** An entry of [content.options]; every property may be missing. *)
Record OptionData := {
  id : option string;
  value : option bool;
  permissions : option (list string);
  origins : option (list string)
}.

Record Content := {
  isLoading : bool;
  options : list (string * OptionData)
}.

(** [{ ...content.options[data.id], value: data.checked }]: spreading
    [undefined] contributes nothing. *)
Definition with_value (o : option OptionData) (checked : bool) : OptionData :=
  match o with
  | Some x => {| id := id x; value := Some checked;
                 permissions := permissions x; origins := origins x |}
  | None => {| id := None; value := Some checked;
               permissions := None; origins := None |}
  end.

(** The property name [optionsToSave[option.id]] assigns to. *)
Definition property_key (i : option string) : string :=
  match i with Some s => s | None => "undefined" end.

(** Lines 41 and 49-51: the object handed to the storage. *)
Definition optionsToSave (opts : list (string * OptionData))
    : gmap string (option bool) :=
  foldl (fun m o => <[property_key (id o) := value o]> m) ∅ (obj_values opts).

Inductive UiEvent :=
| PermissionsRequest (perms orig : list string)
| PermissionsRemove (perms orig : list string)
| StorageSet (saved : gmap string (option bool))    (* BrowserStorage.set({ options }, true) *)
| SetContent (c : Content)
| Snackbar (messageName severity : string)          (* Events.dispatch(Events.SNACKBAR_SHOW, ...) *)
| LogError (msg : string) (e : Error).              (* Errors.error(msg, e) *)

Definition truthy_flag (v : option bool) : bool :=
  match v with Some true => true | _ => false end.

Definition present {A} (x : option A) : bool :=
  match x with Some _ => true | None => false end.

(** Lines 53-65: an array is truthy even when empty. *)
Definition permission_calls (o : OptionData) : list UiEvent :=
  if present (permissions o) || present (origins o) then
    if truthy_flag (value o)
    then [PermissionsRequest (nullish (permissions o) []) (nullish (origins o) [])]
    else [PermissionsRemove (nullish (permissions o) []) (nullish (origins o) [])]
  else [].

(** The options after the change (lines 42-48). *)
Definition changed_options (content : Content) (data_id : string)
    (checked : bool) : list (string * OptionData) :=
  obj_set data_id (with_value (obj_get data_id (options content)) checked)
    (options content).

(** [onOptionChange(data)] with the [content] its closure holds.
    [set_fault] is the rejection of [BrowserStorage.set], if any, and
    [dispatch_fault] that of the dispatch inside [then]; the result is
    the content of the component and the calls made, in order. *)
Definition onOptionChange (content : Content) (data_id : string)
    (checked : bool) (set_fault dispatch_fault : option Error)
    : Content * list UiEvent :=
  let opts := changed_options content data_id checked in
  let toSave := optionsToSave opts in
  let option := with_value (obj_get data_id (options content)) checked in
  let failed e :=
    [LogError "Failed to save option." e; Snackbar "saveOptionFailed" "error"] in
  let before := (permission_calls option ++ [StorageSet toSave])%list in
  match set_fault with
  | Some e => (content, (before ++ failed e)%list)
  | None =>
      let content' := {| isLoading := false; options := opts |} in
      let shown :=
        [SetContent content'; Snackbar "saveOptionSuccess" "success"] in
      (content',
       match dispatch_fault with
       | Some e => (before ++ shown ++ failed e)%list
       | None => (before ++ shown)%list
       end)
  end.

(** The dictionary keeps every entry under the name the entry gives
    itself, once. *)
Definition well_keyed (opts : list (string * OptionData)) : Prop :=
  NoDup (map fst opts) /\ Forall (fun kv => id (snd kv) = Some (fst kv)) opts.

End OptionsPage.

(** ** More services and items to run the code on *)

Module Sample.



Definition seen : Item :=
  set_trakt Fixture.up (TValue {| traktId := 9; watchedAt := Some 50%Z |}).

Definition not_found : Item := set_trakt Fixture.up TNull.

Definition unreadable : Browser Z TraktItem :=
  {| storage := Fixture.no_storage;
     get_fault := Some Fixture.http500; set_fault := None |}.

Definition read_only : Browser Z TraktItem :=
  {| storage := Fixture.no_storage;
     get_fault := None; set_fault := Some Fixture.http500 |}.

Definition toggle (name : string) (v : bool) (perms : option (list string))
    : string * OptionsPage.OptionData :=
  (name, {| OptionsPage.id := Some name; OptionsPage.value := Some v;
            OptionsPage.permissions := perms; OptionsPage.origins := None |}).

Definition page : OptionsPage.Content :=
  {| OptionsPage.isLoading := false;
     OptionsPage.options :=
       [toggle "allowRollbar" false (Some ["tabs"]);
        toggle "showNotifications" true None] |}.

(** The world the scenario of the watermark [(3, "e3")] ends in. *)
Definition after_scenario : World Fixture.Entry (list (list Fixture.Entry)) :=
  {| this := {| leftoverHistoryItems := [Fixture.e3];
                hasReachedHistoryEnd := false;
                subclass := [[Fixture.e2; Fixture.e1]] |};
     store := Fixture.synced;
     log := [CallLoadHistoryItems; CallConvertHistoryItems 2;
             CallSetData Fixture.synced] |}.

(** A later call finds the watermark flag in the store. *)
Definition reached : World Fixture.Entry (list (list Fixture.Entry)) :=
  {| this := this after_scenario; store := Fixture.synced; log := [] |}.

(** A service that has raised its end flag, with one entry buffered. *)
Definition ended : World Fixture.Entry (list (list Fixture.Entry)) :=
  {| this := {| leftoverHistoryItems := [Fixture.e1];
                hasReachedHistoryEnd := true;
                subclass := [] |};
     store := Fixture.empty_store; log := [] |}.

End Sample.

(** * Properties *)

(** ** Cache keys *)

Section SlugFacts.

Lemma word_not_dash c : Str.is_word c = true -> Ascii.eqb c Str.dash = false.
Proof.
  intros Hw. destruct (Ascii.eqb c Str.dash) eqn:E; [|reflexivity].
  apply Ascii.eqb_eq in E. subst c. discriminate Hw.
Qed.

(** Collapsing the dashes after the substitution is collapsing the
    runs of non-word characters before it. *)
Lemma dash_runs_are_non_word_runs b s :
  Str.replace_dash_runs_from b (Str.replace_non_word s)
  = Claimed.replace_runs_from b s.
Proof.
  revert b. induction s as [|c r IH]; intros b; simpl; [reflexivity|].
  destruct (Str.is_word c) eqn:Hw.
  - rewrite (word_not_dash c Hw), IH. reflexivity.
  - simpl. destruct b; rewrite IH; reflexivity.
Qed.

End SlugFacts.

(** C9, as stated, fails: the code turns "The Wire!!" into "the-wire-"
    (the trailing run is replaced like any other) and keeps the
    underscore of "A  B_C", a word character. *)
Lemma C9_examples_fail :
  ServiceApi.getTraktCacheStr "The Wire!!" <> "the-wire"
  /\ ServiceApi.getTraktCacheStr "A  B_C" <> "a-b-c".
Proof. split; intros H; vm_compute in H; discriminate H. Qed.

(** C9, amended: [getTraktCacheStr] lowercases its input and replaces
    every maximal run of characters outside [a-z0-9_] by one dash,
    leading and trailing runs included; "The Wire!!" gives "the-wire-"
    and "A  B_C" gives "a-b_c". *)
Theorem C9_slug_replaces_runs :
  (forall s, ServiceApi.getTraktCacheStr s = Claimed.slug s)
  /\ ServiceApi.getTraktCacheStr "The Wire!!" = "the-wire-"
  /\ ServiceApi.getTraktCacheStr "A  B_C" = "a-b_c".
Proof.
  split; [|split; reflexivity].
  intros s. unfold ServiceApi.getTraktCacheStr, Str.replace_dash_runs, Claimed.slug.
  apply dash_runs_are_non_word_runs.
Qed.

(** C8, as stated, fails: a movie whose year is present and 0 gets no
    year suffix. *)
Lemma C8_year_zero :
  ServiceApi.getTraktCacheId (Fixture.movie "Up" (Some 0%Z)) = "/movies/up"
  /\ Claimed.cacheKey (Fixture.movie "Up" (Some 0%Z)) = "/movies/up-0"
  /\ ServiceApi.getTraktCacheId (Fixture.movie "Up" (Some 0%Z))
     <> Claimed.cacheKey (Fixture.movie "Up" (Some 0%Z)).
Proof.
  split; [reflexivity|]. split; [reflexivity|].
  intros H. vm_compute in H. discriminate H.
Qed.

(** C8, amended: the key is the show or movie path of the claim, with
    the year suffix exactly when the year is present and not zero; it
    is a function of type, title, year, season, episode and episode
    title alone. *)
Theorem C8_cache_key_format (item : Item) :
  ServiceApi.getTraktCacheId item
  = match itemType item with
    | Show =>
        "/shows/" ++ ServiceApi.getTraktCacheStr (title item)
        ++ "/seasons/"
        ++ Str.of_Z (match season item with Some s => s | None => 0%Z end)
        ++ "/episodes/"
        ++ match episode item, episodeTitle item with
           | Some e, _ => Str.of_Z e
           | None, Some t => ServiceApi.getTraktCacheStr t
           | None, None => ServiceApi.getTraktCacheStr "0"
           end
    | Movie =>
        "/movies/" ++ ServiceApi.getTraktCacheStr (title item)
        ++ match year item with
           | Some y => if (y =? 0)%Z then "" else "-" ++ Str.of_Z y
           | None => ""
           end
    end
  /\ (forall (d : string) (t : TraktField),
        ServiceApi.getTraktCacheId
          {| itemType := itemType item; title := title item;
             year := year item; season := season item;
             episode := episode item; episodeTitle := episodeTitle item;
             databaseId := d; trakt := t |}
        = ServiceApi.getTraktCacheId item).
Proof.
  split; [|reflexivity].
  unfold ServiceApi.getTraktCacheId, nullish, truthy_num.
  destruct (itemType item).
  - destruct (season item), (episode item), (episodeTitle item); reflexivity.
  - destruct (year item) as [y|]; [|reflexivity].
    destruct (y =? 0)%Z; reflexivity.
Qed.

Example show_keys :
  ServiceApi.getTraktCacheId
    (Fixture.show "The Wire" (Some 1%Z) None (Some "The Target"))
  = "/shows/the-wire/seasons/1/episodes/the-target"
  /\ ServiceApi.getTraktCacheId (Fixture.show "The Wire" None (Some 0%Z) None)
     = "/shows/the-wire/seasons/0/episodes/0"
  /\ ServiceApi.getTraktCacheId (Fixture.show "The Wire" (Some 2%Z) None None)
     = "/shows/the-wire/seasons/2/episodes/0"
  /\ ServiceApi.getTraktCacheId Fixture.up = "/movies/up-2009".
Proof. repeat split. Qed.

(** ** Catalog resolution *)

Section ResolutionFacts.

Context {Suggestion SavedTraktItem : Type}.
Variable find : Item -> option Suggestion -> result TraktField.
Variable sync : Item -> option Z * result unit.
Variable load : SavedTraktItem -> TraktItem.
Variable save : TraktItem -> SavedTraktItem.

Abbreviation try_ := (loadTraktItemHistory_try find sync load save).
Abbreviation call_ := (loadTraktItemHistory find sync load save).
Abbreviation watched_ := (load_watched sync save).
Abbreviation batch_ := (loadTraktHistory find sync load save).
Abbreviation settle_ := (settle find sync load save).
Abbreviation fan_out_ := (fan_out find sync load save).

(** The promise of one item's call is never rejected. *)
Lemma call_is_fulfilled item cache c : run_promise (call_ item cache c) = Ok tt.
Proof.
  unfold loadTraktItemHistory.
  destruct (run_promise (try_ item cache c)) as [[]|e] eqn:E; [exact E|reflexivity].
Qed.

Lemma Promise_all_fulfilled (ps : list (result unit)) :
  Forall (fun p => p = Ok tt) ps -> is_ok (Promise_all ps) = true.
Proof.
  induction 1 as [|p ps Hp _ IH]; [reflexivity|].
  subst p. simpl. destruct (Promise_all ps); [reflexivity|discriminate IH].
Qed.

Lemma fan_out_fulfilled cs cache missing :
  is_ok (Promise_all (map run_promise (fan_out_ cs cache missing))) = true.
Proof.
  apply Promise_all_fulfilled. unfold fan_out. rewrite map_map.
  apply Forall_forall. intros p Hp. apply list_elem_of_In, in_map_iff in Hp.
  destruct Hp as [item [<- _]]. apply call_is_fulfilled.
Qed.

(** A failed [try] never got to the cache assignment, its last
    statement. *)
Lemma failed_try_writes_nothing item cache c e :
  run_promise (try_ item cache c) = Err e -> run_write (try_ item cache c) = None.
Proof.
  assert (Hw : forall k it, run_promise (watched_ k it) = Err e ->
                            run_write (watched_ k it) = None).
  { intros k it. unfold load_watched.
    destruct (trakt it) as [| |t]; try discriminate.
    destruct (watchedAt t); try discriminate.
    destruct (sync it) as [w []]; simpl; [discriminate|reflexivity]. }
  unfold loadTraktItemHistory_try.
  destruct (truthy_trakt (trakt item)); [apply Hw|].
  destruct (choose_source _ _) as [c'|saved]; [|apply Hw].
  destruct (find item c'); [apply Hw|reflexivity].
Qed.

Lemma discard_leaves_no_watchedAt item :
  match trakt (discard_watchedAt item) with
  | TValue t => watchedAt t = None
  | _ => True
  end.
Proof.
  unfold discard_watchedAt. destruct (trakt item) eqn:E; simpl; rewrite ?E; exact I || reflexivity.
Qed.

Lemma settle_lookup cs cache (its : list Item) i item :
  its !! i = Some item ->
  settle_ cs cache its !! i
  = Some (if is_missing item
          then run_item (call_ item cache (lookup_correction cs (databaseId item)))
          else item).
Proof.
  intros H. unfold settle. rewrite list_lookup_fmap, H. reflexivity.
Qed.

Lemma settle_none_missing cs cache (its : list Item) :
  filter (fun item => is_missing item = true) its = [] -> settle_ cs cache its = its.
Proof.
  induction its as [|x its IH]; [reflexivity|].
  rewrite filter_cons. simpl. destruct (decide (is_missing x = true)) as [Hx|Hx].
  - discriminate.
  - intros H. apply not_true_is_false in Hx. rewrite Hx, (IH H). reflexivity.
Qed.

(** C6: for an item without a catalog entry, a correction sends the
    resolution to the search with that correction, whatever the cache
    holds for the key; without a correction a cache entry for the key
    is loaded (no search); with neither, a plain search is made. *)
Theorem C6_resolution_source (item : Item)
    (cache : gmap string SavedTraktItem) (correction : option Suggestion) :
  truthy_trakt (trakt item) = false ->
  let cacheId := ServiceApi.getTraktCacheId item in
  let searched c :=
    match find item c with
    | Err e => {| run_item := item; run_write := None; run_promise := Err e |}
    | Ok t => watched_ cacheId (set_trakt item t)
    end in
  match correction, cache !! cacheId with
  | Some c, _ =>
      try_ item cache correction = searched (Some c)
      /\ forall cache', try_ item cache' correction = try_ item cache correction
  | None, Some saved =>
      try_ item cache correction
      = watched_ cacheId (set_trakt item (TValue (load saved)))
  | None, None => try_ item cache correction = searched None
  end.
Proof.
  intros Hno cacheId searched. unfold loadTraktItemHistory_try.
  rewrite Hno. fold cacheId.
  destruct correction as [c|].
  - split; [reflexivity|]. intros cache'. reflexivity.
  - destruct (cache !! cacheId) as [saved|]; reflexivity.
Qed.

(** C7: a batch is not failed by an item.  With the storage readable,
    every item of the batch ends as its own call leaves it, whatever
    happens to the others; the calls' promises are all fulfilled, so
    the batch goes on to persist the cache and, if that succeeds,
    reports nothing; an item whose resolution raised ends with its
    [watchedAt] deleted if it has a catalog entry, unresolved
    otherwise, and wrote nothing to the cache. *)
Theorem C7_item_failure_is_isolated (its : list Item)
    (b : Browser Suggestion SavedTraktItem) :
  get_fault b = None ->
  let cs := corrections (storage b) in
  let cache := nullish (traktCache (storage b)) ∅ in
  let call item := call_ item cache (lookup_correction cs (databaseId item)) in
  let tried item := try_ item cache (lookup_correction cs (databaseId item)) in
  let o := batch_ its b in
  out_promise o = Ok tt
  /\ (forall i item, its !! i = Some item ->
        out_items o !! i
        = Some (if is_missing item then run_item (call item) else item))
  /\ (forall item, In item its -> is_missing item = true ->
        In CallStorageSet (out_log o))
  /\ (set_fault b = None -> Forall (fun ev => is_report ev = false) (out_log o))
  /\ (forall item e, run_promise (tried item) = Err e ->
        run_promise (call item) = Ok tt
        /\ run_write (call item) = None
        /\ run_item (call item) = discard_watchedAt (run_item (tried item))
        /\ match trakt (run_item (call item)) with
           | TValue t => watchedAt t = None
           | _ => True
           end).
Proof.
  intros Hget cs cache call tried o.
  assert (Hitems : out_items o = settle_ cs cache its).
  { subst o. unfold loadTraktHistory.
    destruct (length _ =? 0)%nat eqn:Hlen.
    - simpl. symmetry. apply settle_none_missing.
      apply Nat.eqb_eq in Hlen. destruct (filter _ its); [reflexivity|discriminate].
    - rewrite Hget. fold cs cache.
      destruct (Promise_all _); [destruct (set_fault b)|]; reflexivity. }
  split; [|split; [|split; [|split]]].
  - subst o. unfold loadTraktHistory.
    destruct (length _ =? 0)%nat; [reflexivity|]. rewrite Hget.
    destruct (Promise_all _); [destruct (set_fault b)|]; reflexivity.
  - intros i item Hi. rewrite Hitems. apply settle_lookup, Hi.
  - intros item Hin Hmiss. subst o. unfold loadTraktHistory.
    destruct (length _ =? 0)%nat eqn:Hlen.
    + exfalso. apply Nat.eqb_eq in Hlen.
      assert (Hm : item ∈ filter (fun it => is_missing it = true) its).
      { apply list_elem_of_filter. split; [exact Hmiss|]. apply list_elem_of_In, Hin. }
      destruct (filter _ its); [inversion Hm|discriminate].
    + rewrite Hget. fold cs cache.
      pose proof (fan_out_fulfilled cs cache
                    (filter (fun it => is_missing it = true) its)) as Hall.
      destruct (Promise_all _); [|discriminate Hall].
      destruct (set_fault b); simpl; auto.
  - intros Hset. subst o. unfold loadTraktHistory.
    destruct (length _ =? 0)%nat; [constructor|]. rewrite Hget. fold cs cache.
    pose proof (fan_out_fulfilled cs cache
                  (filter (fun it => is_missing it = true) its)) as Hall.
    destruct (Promise_all _); [|discriminate Hall].
    rewrite Hset. simpl. repeat constructor.
  - intros item e He. subst call tried. simpl in *.
    split; [apply call_is_fulfilled|].
    pose proof (failed_try_writes_nothing item cache _ e He) as Hw.
    unfold loadTraktItemHistory. rewrite He. simpl.
    split; [exact Hw|]. split; [reflexivity|]. apply discard_leaves_no_watchedAt.
Qed.

End ResolutionFacts.

Lemma C6_correction_beats_cache :
  truthy_trakt (trakt Fixture.up) = false
  /\ Fixture.cache_up !! ServiceApi.getTraktCacheId Fixture.up
     = Some {| traktId := 9; watchedAt := Some 50%Z |}
  /\ run_item (Fixture.resolve Fixture.up Fixture.cache_up (Some 42%Z))
     = Fixture.found Fixture.up 42 100
  /\ run_item (Fixture.resolve Fixture.up Fixture.cache_up None)
     = Fixture.found Fixture.up 9 50
  /\ run_item (Fixture.resolve Fixture.up ∅ None)
     = Fixture.found Fixture.up 7 100.
Proof.
  split; [reflexivity|]. split; [vm_compute; reflexivity|].
  pose proof (C6_resolution_source Fixture.find Fixture.sync
                (fun t : TraktItem => t) (fun t => t)
                Fixture.up Fixture.cache_up (Some 42%Z) eq_refl) as [H _].
  unfold Fixture.resolve. rewrite H. split; [reflexivity|].
  split; vm_compute; reflexivity.
Defined.

Lemma C7_three_items :
  get_fault (Fixture.browser Fixture.no_storage) = None
  /\ out_promise (Fixture.batch Fixture.three (Fixture.browser Fixture.no_storage))
     = Ok tt
  /\ out_items (Fixture.batch Fixture.three (Fixture.browser Fixture.no_storage))
     = [Fixture.found (Fixture.movie "Up" None) 7 100;
        Fixture.movie "lost" None;
        Fixture.found (Fixture.movie "Heat" None) 7 100].
Proof.
  split; [reflexivity|].
  pose proof (C7_item_failure_is_isolated Fixture.find Fixture.sync
                (fun t : TraktItem => t) (fun t => t)
                Fixture.three (Fixture.browser Fixture.no_storage) eq_refl)
    as (H1 & _).
  split; [exact H1|]. vm_compute. reflexivity.
Defined.

(** ** The paging engine *)

Section EngineFacts.

Context {Raw S : Type} (svc : Service Raw S).
Variables (lastSync : Z) (lastSyncId : string).

Abbreviation is_new := (fun x : Raw => isNewHistoryItem x lastSync lastSyncId = true).

(** What the scan does with the part of the page it has not visited
    yet: it accepts the new entries in front, and stops at the first
    one that is not new, handing it back with everything behind it. *)
Lemma scan_spec (responseItems rest : list Raw) :
  forall index filteredItems,
    drop index responseItems = rest ->
    exists accepted behind,
      rest = (accepted ++ behind)%list
      /\ Forall is_new accepted
      /\ scan svc lastSync lastSyncId responseItems index rest filteredItems
         = ((filteredItems ++ accepted)%list,
            match behind with [] => None | _ :: _ => Some behind end)
      /\ match behind with
         | [] => True
         | x :: _ => isNewHistoryItem x lastSync lastSyncId = false
         end.
Proof.
  induction rest as [|x rest' IH]; intros index filteredItems Hdrop.
  - exists [], []. simpl. rewrite app_nil_r. auto.
  - simpl. destruct (isNewHistoryItem x lastSync lastSyncId) eqn:Hx.
    + assert (Hnext : drop (Datatypes.S index) responseItems = rest').
      { replace (Datatypes.S index) with (index + 1)%nat by lia.
        rewrite <- drop_drop, Hdrop. reflexivity. }
      destruct (IH _ (filteredItems ++ [x])%list Hnext)
        as (accepted & behind & -> & Hall & Hscan & Hstop).
      exists (x :: accepted), behind. repeat split; auto.
      rewrite Hscan, <- app_assoc. reflexivity.
    + exists [], (x :: rest'). rewrite app_nil_r, Hdrop. auto.
Qed.

Lemma watermark_set_true : (0 < lastSync)%Z -> lastSyncId <> "" ->
  watermark_set lastSync lastSyncId = true.
Proof.
  intros Hpos Hid. unfold watermark_set.
  apply andb_true_intro. split; [apply Z.ltb_lt, Hpos|].
  apply negb_true_iff, String.eqb_neq, Hid.
Qed.

Lemma filter_page_watermark (page : list Raw) :
  watermark_set lastSync lastSyncId = true ->
  exists accepted behind,
    page = (accepted ++ behind)%list
    /\ Forall is_new accepted
    /\ filter_page svc lastSync lastSyncId page
       = (accepted, match behind with [] => None | _ :: _ => Some behind end)
    /\ match behind with
       | [] => True
       | x :: _ => isNewHistoryItem x lastSync lastSyncId = false
       end.
Proof.
  intros Hw. unfold filter_page. rewrite Hw.
  destruct (scan_spec page page 0 [] eq_refl) as (acc & behind & ? & ? & ? & ?).
  exists acc, behind. auto.
Qed.

(** *** What a pass leaves alone *)

Lemma source_page_log (w : World Raw S) :
  log (fst (source_page svc w))
  = (log w ++ if (0 <? length (leftoverHistoryItems (this w)))%nat then []
              else if hasReachedHistoryEnd (this w) then []
                   else [CallLoadHistoryItems])%list.
Proof.
  unfold source_page.
  destruct (0 <? length _)%nat; simpl; [rewrite app_nil_r; reflexivity|].
  destruct (hasReachedHistoryEnd (this w)); simpl; [rewrite app_nil_r; reflexivity|].
  destruct (loadHistoryItems _ _) as [[s' b'] r]. reflexivity.
Qed.

Lemma source_page_store (w : World Raw S) :
  store (fst (source_page svc w)) = store w.
Proof.
  unfold source_page.
  destruct (0 <? length _)%nat; [reflexivity|].
  destruct (hasReachedHistoryEnd (this w)); [reflexivity|].
  destruct (loadHistoryItems _ _) as [[s' b'] r]. reflexivity.
Qed.

Lemma process_page_world (page : list Raw) (w : World Raw S) (l : Locals Raw) :
  let w' := fst (process_page svc lastSync lastSyncId page w l) in
  store w' = store w /\ log w' = log w
  /\ hasReachedHistoryEnd (this w') = hasReachedHistoryEnd (this w)
  /\ subclass (this w') = subclass (this w).
Proof.
  unfold process_page.
  destruct (0 <? length page)%nat; [|simpl; auto].
  destruct (filter_page _ _ _ _) as [f [rest|]]; simpl; auto.
Qed.

Lemma loop_body_log (w : World Raw S) (l : Locals Raw) :
  log (fst (loop_body svc lastSync lastSyncId w l))
  = log (fst (source_page svc w)).
Proof.
  unfold loop_body. destruct (source_page svc w) as [w1 [page|e]]; [|reflexivity].
  pose proof (process_page_world page w1 l) as (_ & H & _).
  destruct (process_page _ _ _ _ _ _). exact H.
Qed.

Lemma loop_body_store (w : World Raw S) (l : Locals Raw) :
  store (fst (loop_body svc lastSync lastSyncId w l)) = store w.
Proof.
  unfold loop_body. rewrite <- (source_page_store w).
  destruct (source_page svc w) as [w1 [page|e]]; [|reflexivity].
  pose proof (process_page_world page w1 l) as (H & _).
  destruct (process_page _ _ _ _ _ _). exact H.
Qed.

(** A rejected pass is a rejected page fetch. *)
Lemma source_page_error (w w' : World Raw S) e :
  source_page svc w = (w', Err e) ->
  exists s b s' b', loadHistoryItems s b = (s', b', Err e).
Proof.
  unfold source_page.
  destruct (0 <? length _)%nat; [discriminate|].
  destruct (hasReachedHistoryEnd (this w)); simpl; [discriminate|].
  destruct (loadHistoryItems (subclass (this w)) false)
    as [[s' b'] [page|e']] eqn:E; [discriminate|].
  intros [= _ <-]. eauto.
Qed.

Lemma loop_body_error (w w' : World Raw S) (l : Locals Raw) e :
  loop_body svc lastSync lastSyncId w l = (w', Err e) ->
  exists s b s' b', loadHistoryItems s b = (s', b', Err e).
Proof.
  unfold loop_body.
  destruct (source_page svc w) as [w1 [page|e1]] eqn:E.
  - destruct (process_page _ _ _ _ _ _). discriminate.
  - intros [= _ <-]. eapply source_page_error, E.
Qed.

Lemma history_loop_world fuel : forall (w w' : World Raw S) (l : Locals Raw) r,
  history_loop svc fuel lastSync lastSyncId w l = Some (w', r) ->
  store w' = store w
  /\ exists evs, log w' = (log w ++ evs)%list /\ quiet evs.
Proof.
  induction fuel as [|fuel IH]; intros w w' l r; simpl; [discriminate|].
  pose proof (loop_body_store w l) as Hst.
  pose proof (loop_body_log w l) as Hlog. rewrite source_page_log in Hlog.
  assert (Hq : exists evs, log (fst (loop_body svc lastSync lastSyncId w l))
                           = (log w ++ evs)%list /\ quiet evs).
  { rewrite Hlog. eexists. split; [reflexivity|].
    destruct (0 <? _)%nat; [constructor|].
    destruct (hasReachedHistoryEnd _); repeat constructor. }
  destruct (loop_body svc lastSync lastSyncId w l) as [w1 [l1|e]]; simpl in *.
  - destruct (loop_again l1).
    + intros H. apply IH in H. destruct H as (Hs & evs & Hl & Hq').
      split; [congruence|]. destruct Hq as (evs0 & Hl0 & Hq0).
      exists (evs0 ++ evs)%list. split.
      * rewrite Hl, Hl0, app_assoc. reflexivity.
      * apply Forall_app. split; assumption.
    + intros [= <- <-]. auto.
  - intros [= <- <-]. auto.
Qed.

Lemma history_loop_error fuel : forall (w w' : World Raw S) (l : Locals Raw) e,
  history_loop svc fuel lastSync lastSyncId w l = Some (w', Err e) ->
  exists s b s' b', loadHistoryItems s b = (s', b', Err e).
Proof.
  induction fuel as [|fuel IH]; intros w w' l e; simpl; [discriminate|].
  destruct (loop_body svc lastSync lastSyncId w l) as [w1 [l1|e1]] eqn:E.
  - destruct (loop_again l1); [apply IH|discriminate].
  - intros [= <- <-]. eapply loop_body_error, E.
Qed.

(** *** The loop and its passes *)

Lemma history_loop_passes fuel : forall (w w' : World Raw S) (l l' : Locals Raw),
  history_loop svc fuel lastSync lastSyncId w l = Some (w', Ok l') ->
  exists k wk lk,
    (k < fuel)%nat
    /\ passes svc k lastSync lastSyncId w l = Some (wk, lk)
    /\ loop_body svc lastSync lastSyncId wk lk = (w', Ok l')
    /\ loop_again l' = false.
Proof.
  induction fuel as [|fuel IH]; intros w w' l l'; simpl; [discriminate|].
  destruct (loop_body svc lastSync lastSyncId w l) as [w1 [l1|e]] eqn:E;
    [|discriminate].
  destruct (loop_again l1) eqn:A.
  - intros H. destruct (IH _ _ _ _ H) as (k & wk & lk & Hk & Hp & Hb & Ha).
    exists (Datatypes.S k), wk, lk. repeat split; [lia| |exact Hb|exact Ha].
    simpl. rewrite E, A. exact Hp.
  - intros [= <- <-]. exists 0%nat, w, l. repeat split; [lia|exact E|exact A].
Qed.

Lemma passes_history_loop k : forall fuel (w wk w' : World Raw S) (l lk l' : Locals Raw),
  (k < fuel)%nat ->
  passes svc k lastSync lastSyncId w l = Some (wk, lk) ->
  loop_body svc lastSync lastSyncId wk lk = (w', Ok l') ->
  loop_again l' = false ->
  history_loop svc fuel lastSync lastSyncId w l = Some (w', Ok l').
Proof.
  induction k as [|k IH]; intros [|fuel] w wk w' l lk l' Hk; try lia; simpl.
  - intros [= <- <-] Hb Ha. rewrite Hb, Ha. reflexivity.
  - destruct (loop_body svc lastSync lastSyncId w l) as [w1 [l1|e]];
      [|discriminate].
    destruct (loop_again l1); [|discriminate].
    intros Hp Hb Ha. eapply IH; eauto. lia.
Qed.

(** The loop runs out of fuel exactly when that many passes each asked
    for another. *)
Lemma history_loop_None fuel : forall (w : World Raw S) (l : Locals Raw),
  history_loop svc fuel lastSync lastSyncId w l = None
  <-> is_Some (passes svc fuel lastSync lastSyncId w l).
Proof.
  induction fuel as [|fuel IH]; intros w l; simpl.
  - split; [eauto|reflexivity].
  - destruct (loop_body svc lastSync lastSyncId w l) as [w1 [l1|e]].
    + destruct (loop_again l1); [apply IH|].
      split; [discriminate|]. intros [x Hx]. discriminate.
    + split; [discriminate|]. intros [x Hx]. discriminate.
Qed.

Lemma loop_body_accepts (w w' : World Raw S) (l l' : Locals Raw) :
  loop_body svc lastSync lastSyncId w l = (w', Ok l') ->
  l_hasReachedEnd l'
  = hasReachedHistoryEnd (this w') || l_hasReachedLastSyncDate l'
  /\ exists accepted,
       historyItems l' = (historyItems l ++ accepted)%list
       /\ itemsToLoad l' = (itemsToLoad l - Z.of_nat (length accepted))%Z
       /\ forall n,
            loop_body svc lastSync lastSyncId w
              {| itemsToLoad := n; l_hasReachedEnd := l_hasReachedEnd l;
                 l_hasReachedLastSyncDate := l_hasReachedLastSyncDate l;
                 historyItems := historyItems l |}
            = (w', Ok {| itemsToLoad := (n - Z.of_nat (length accepted))%Z;
                         l_hasReachedEnd := l_hasReachedEnd l';
                         l_hasReachedLastSyncDate := l_hasReachedLastSyncDate l';
                         historyItems := historyItems l' |}).
Proof.
  unfold loop_body.
  destruct (source_page svc w) as [w1 [page|e]]; [|discriminate].
  unfold process_page.
  destruct (0 <? length page)%nat.
  - destruct (filter_page svc lastSync lastSyncId page) as [f stop].
    intros [= <- <-]. simpl. split; [reflexivity|].
    exists f. repeat split.
  - intros [= <- <-]. simpl. split; [reflexivity|].
    exists []. rewrite app_nil_r. split; [reflexivity|].
    split; [simpl; lia|]. intros n. simpl. rewrite Z.sub_0_r. reflexivity.
Qed.

Lemma count_fetches_app (l1 l2 : list Event) :
  count_fetches (l1 ++ l2) = (count_fetches l1 + count_fetches l2)%nat.
Proof. unfold count_fetches. rewrite filter_app, length_app. reflexivity. Qed.

(** C1: with [lastSync > 0] and a non-empty [lastSyncId], a pass
    accepts the entries of its page in order as long as
    [isNewHistoryItem] holds; the first entry for which it fails goes
    to the leftover buffer with everything behind it,
    [hasReachedLastSyncDate] becomes true and the page is not scanned
    further (the loop asks for no other pass); no entry that is not
    new ever enters the accumulated list. *)
Theorem C1_scan_stops_at_watermark :
  (0 < lastSync)%Z -> lastSyncId <> "" ->
  (forall (w w1 : World Raw S) (l : Locals Raw) (page : list Raw),
     source_page svc w = (w1, Ok page) ->
     exists accepted behind w2 l',
       loop_body svc lastSync lastSyncId w l = (w2, Ok l')
       /\ page = (accepted ++ behind)%list
       /\ Forall is_new accepted
       /\ historyItems l' = (historyItems l ++ accepted)%list
       /\ match behind with
          | [] =>
              leftoverHistoryItems (this w2) = leftoverHistoryItems (this w1)
              /\ l_hasReachedLastSyncDate l' = l_hasReachedLastSyncDate l
          | x :: _ =>
              isNewHistoryItem x lastSync lastSyncId = false
              /\ leftoverHistoryItems (this w2) = behind
              /\ l_hasReachedLastSyncDate l' = true
              /\ loop_again l' = false
          end)
  /\ (forall fuel (w w' : World Raw S) (l l' : Locals Raw),
        history_loop svc fuel lastSync lastSyncId w l = Some (w', Ok l') ->
        Forall is_new (historyItems l) ->
        Forall is_new (historyItems l')).
Proof.
  intros Hpos Hid.
  pose proof (watermark_set_true Hpos Hid) as Hw.
  assert (Hpass : forall (w w1 : World Raw S) (l : Locals Raw) (page : list Raw),
     source_page svc w = (w1, Ok page) ->
     exists accepted behind w2 l',
       loop_body svc lastSync lastSyncId w l = (w2, Ok l')
       /\ page = (accepted ++ behind)%list
       /\ Forall is_new accepted
       /\ historyItems l' = (historyItems l ++ accepted)%list
       /\ match behind with
          | [] =>
              leftoverHistoryItems (this w2) = leftoverHistoryItems (this w1)
              /\ l_hasReachedLastSyncDate l' = l_hasReachedLastSyncDate l
          | x :: _ =>
              isNewHistoryItem x lastSync lastSyncId = false
              /\ leftoverHistoryItems (this w2) = behind
              /\ l_hasReachedLastSyncDate l' = true
              /\ loop_again l' = false
          end).
  { intros w w1 l page Hsrc. unfold loop_body. rewrite Hsrc.
    unfold process_page. destruct page as [|x page].
    - exists [], [], w1. eexists. simpl. rewrite app_nil_r.
      repeat split; constructor.
    - change (0 <? length (x :: page))%nat with true. cbv iota.
      destruct (filter_page_watermark (x :: page) Hw)
        as (accepted & behind & Hpage & Hall & Hf & Hstop).
      rewrite Hf. exists accepted, behind.
      destruct behind as [|y behind]; do 2 eexists;
        (split; [reflexivity|]); simpl; repeat split; auto.
      unfold loop_again. simpl. rewrite orb_true_r. reflexivity. }
  split; [exact Hpass|].
  induction fuel as [|fuel IH]; intros w w' l l'; simpl; [discriminate|].
  destruct (source_page svc w) as [w1 [page|e]] eqn:Hsrc.
  - destruct (Hpass w w1 l page Hsrc)
      as (accepted & behind & w2 & l2 & Hb & _ & Hall & Hh & _).
    rewrite Hb. intros Hrun Hold.
    assert (Hnew : Forall is_new (historyItems l2)).
    { rewrite Hh. apply Forall_app. split; assumption. }
    destruct (loop_again l2); [eapply IH; eauto|].
    injection Hrun as <- <-. exact Hnew.
  - unfold loop_body. rewrite Hsrc. discriminate.
Qed.

(** C2: a pass whose leftover buffer is not empty takes the buffer as
    its page, empties it and fetches nothing; [loadHistoryItems] is
    called, once, only in a pass that finds the buffer empty and
    [hasReachedHistoryEnd] false. *)
Theorem C2_leftovers_before_fetch (w : World Raw S) (l : Locals Raw) :
  let w1 := fst (source_page svc w) in
  let w2 := fst (loop_body svc lastSync lastSyncId w l) in
  match leftoverHistoryItems (this w) with
  | _ :: _ =>
      snd (source_page svc w) = Ok (leftoverHistoryItems (this w))
      /\ leftoverHistoryItems (this w1) = []
      /\ subclass (this w1) = subclass (this w)
      /\ log w2 = log w
  | [] =>
      if hasReachedHistoryEnd (this w)
      then source_page svc w = (w, Ok []) /\ log w2 = log w
      else snd (source_page svc w)
           = snd (loadHistoryItems (subclass (this w)) false)
           /\ log w2 = (log w ++ [CallLoadHistoryItems])%list
           /\ count_fetches (log w2) = Datatypes.S (count_fetches (log w))
  end.
Proof.
  intros w1 w2. subst w1 w2.
  rewrite loop_body_log, source_page_log. unfold source_page.
  destruct (leftoverHistoryItems (this w)) as [|x rest] eqn:Hleft; simpl.
  - destruct (hasReachedHistoryEnd (this w)); simpl.
    + rewrite app_nil_r. auto.
    + destruct (loadHistoryItems _ _) as [[s' b'] r]. simpl.
      repeat split. rewrite count_fetches_app.
      change (count_fetches [CallLoadHistoryItems]) with 1%nat. lia.
  - rewrite app_nil_r. auto.
Qed.

(** C3: the loop makes another pass exactly when the pass just made
    ends with [hasReachedEnd] false and [itemsToLoad > 0]; after each
    pass [hasReachedEnd] is [hasReachedHistoryEnd ||
    hasReachedLastSyncDate], so a met target ends the loop without
    setting it; an empty page changes neither the accepted entries nor
    [hasReachedLastSyncDate]; [itemsToLoad] is decreased by the number
    of accepted entries without a floor, and what a pass accepts does
    not depend on it. *)
Theorem C3_loop_condition (w : World Raw S) (l : Locals Raw) :
  (forall fuel w' l',
     history_loop svc fuel lastSync lastSyncId w l = Some (w', Ok l')
     <-> exists k wk lk,
           (k < fuel)%nat
           /\ passes svc k lastSync lastSyncId w l = Some (wk, lk)
           /\ loop_body svc lastSync lastSyncId wk lk = (w', Ok l')
           /\ (l_hasReachedEnd l' = true \/ (itemsToLoad l' <= 0)%Z))
  /\ (forall w1 l1,
        loop_body svc lastSync lastSyncId w l = (w1, Ok l1) ->
        l_hasReachedEnd l1
        = hasReachedHistoryEnd (this w1) || l_hasReachedLastSyncDate l1
        /\ (hasReachedHistoryEnd (this w1) = false ->
            l_hasReachedLastSyncDate l1 = false ->
            (itemsToLoad l1 <= 0)%Z ->
            forall fuel,
              history_loop svc (Datatypes.S fuel) lastSync lastSyncId w l
              = Some (w1, Ok l1)
              /\ l_hasReachedEnd l1 = false)
        /\ exists accepted,
             historyItems l1 = (historyItems l ++ accepted)%list
             /\ itemsToLoad l1
                = (itemsToLoad l - Z.of_nat (length accepted))%Z
             /\ forall n,
                  loop_body svc lastSync lastSyncId w
                    {| itemsToLoad := n; l_hasReachedEnd := l_hasReachedEnd l;
                       l_hasReachedLastSyncDate := l_hasReachedLastSyncDate l;
                       historyItems := historyItems l |}
                  = (w1, Ok {| itemsToLoad := (n - Z.of_nat (length accepted))%Z;
                               l_hasReachedEnd := l_hasReachedEnd l1;
                               l_hasReachedLastSyncDate := l_hasReachedLastSyncDate l1;
                               historyItems := historyItems l1 |}))
  /\ (forall w1,
        source_page svc w = (w1, Ok []) ->
        loop_body svc lastSync lastSyncId w l
        = (w1, Ok {| itemsToLoad := itemsToLoad l;
                     l_hasReachedEnd :=
                       hasReachedHistoryEnd (this w1) || l_hasReachedLastSyncDate l;
                     l_hasReachedLastSyncDate := l_hasReachedLastSyncDate l;
                     historyItems := historyItems l |})).
Proof.
  assert (Hagain : forall l' : Locals Raw,
            loop_again l' = false
            <-> (l_hasReachedEnd l' = true \/ (itemsToLoad l' <= 0)%Z)).
  { intros l'. unfold loop_again. rewrite andb_false_iff, negb_false_iff.
    rewrite Z.ltb_ge. reflexivity. }
  split; [|split].
  - intros fuel w' l'. split.
    + intros H. destruct (history_loop_passes _ _ _ _ _ H)
        as (k & wk & lk & Hk & Hp & Hb & Ha).
      exists k, wk, lk. rewrite <- Hagain. auto.
    + intros (k & wk & lk & Hk & Hp & Hb & Ha).
      eapply passes_history_loop; eauto. apply Hagain, Ha.
  - intros w1 l1 Hb.
    destruct (loop_body_accepts _ _ _ _ Hb) as (Hend & Hacc).
    split; [exact Hend|]. split; [|exact Hacc].
    intros He Hs Hn fuel.
    assert (Hfalse : l_hasReachedEnd l1 = false) by (rewrite Hend, He, Hs; reflexivity).
    split; [|exact Hfalse].
    simpl. rewrite Hb.
    replace (loop_again l1) with false; [reflexivity|].
    symmetry. apply Hagain. right. exact Hn.
  - intros w1 Hsrc. unfold loop_body. rewrite Hsrc. reflexivity.
Qed.

(** *** Failures *)

Lemma finish_error (w w' : World Raw S) (l : Locals Raw) e :
  finish svc w l = (w', Err e) ->
  store w' = store w
  /\ (exists evs, log w' = (log w ++ evs)%list /\ quiet evs)
  /\ convertHistoryItems (historyItems l) = Err e.
Proof.
  unfold finish. destruct (0 <? length (historyItems l))%nat; [|discriminate].
  destruct (convertHistoryItems (historyItems l)) as [its|e'] eqn:E; [discriminate|].
  intros [= <- <-]. simpl. split; [reflexivity|]. split; [|reflexivity].
  eexists. split; [reflexivity|]. repeat constructor.
Qed.

(** An error that leaves the [try] block was raised by the page fetch
    or by the conversion, before anything was written or reported. *)
Lemma loadHistory_try_error fuel n (w w' : World Raw S) e :
  loadHistory_try svc fuel n lastSync lastSyncId w = Some (w', Err e) ->
  store w' = store w
  /\ (exists evs, log w' = (log w ++ evs)%list /\ quiet evs)
  /\ ((exists s b s' b', loadHistoryItems s b = (s', b', Err e))
      \/ (exists h, convertHistoryItems h = Err e)).
Proof.
  unfold loadHistory_try.
  destruct (history_loop _ _ _ _ _ _) as [[w1 [l1|e1]]|] eqn:E; [| |discriminate].
  - destruct (history_loop_world _ _ _ _ _ E) as (Hs & evs & Hl & Hq).
    intros [= H]. destruct (finish_error _ _ _ _ H) as (Hs' & (evs' & Hl' & Hq') & Hc).
    split; [congruence|]. split; [|right; eauto].
    exists (evs ++ evs')%list. split.
    + rewrite Hl', Hl, app_assoc. reflexivity.
    + apply Forall_app. split; assumption.
  - intros [= <- <-].
    destruct (history_loop_world _ _ _ _ _ E) as (Hs & Hl).
    split; [exact Hs|]. split; [exact Hl|]. left.
    eapply history_loop_error, E.
Qed.

Lemma emit_nothing (w : World Raw S) : emit w [] = w.
Proof. destruct w. unfold emit. simpl. rewrite app_nil_r. reflexivity. Qed.

(** C4: when the page fetch or the conversion raises an error whose
    [canceled] flag is set, [loadHistory] ends without a call of
    [setData] (the store is as it was), without a report to the error
    channel and without dispatching [SERVICE_HISTORY_LOAD_ERROR]. *)
Theorem C4_canceled_is_silent fuel n (w w1 : World Raw S) e :
  loadHistory_try svc fuel n lastSync lastSyncId w = Some (w1, Err e) ->
  canceled e = true ->
  ((exists s b s' b', loadHistoryItems s b = (s', b', Err e))
   \/ (exists h, convertHistoryItems h = Err e))
  /\ loadHistory svc fuel n lastSync lastSyncId w = Some (w1, Err e)
  /\ store w1 = store w
  /\ exists evs, log w1 = (log w ++ evs)%list /\ quiet evs.
Proof.
  intros Htry Hc.
  destruct (loadHistory_try_error _ _ _ _ _ Htry) as (Hs & Hl & Ho).
  split; [exact Ho|]. split; [|split; assumption].
  unfold loadHistory, loadHistory_catch. rewrite Htry, Hc, emit_nothing.
  reflexivity.
Qed.

(** C5: when the page fetch or the conversion raises an error whose
    [canceled] flag is not set, [loadHistory] reports it to the error
    channel, dispatches [SERVICE_HISTORY_LOAD_ERROR] with it, calls
    [setData] nowhere (the store is as it was) and rejects with that
    same error. *)
Theorem C5_error_is_reported_and_rethrown fuel n (w w1 : World Raw S) e :
  loadHistory_try svc fuel n lastSync lastSyncId w = Some (w1, Err e) ->
  canceled e = false ->
  ((exists s b s' b', loadHistoryItems s b = (s', b', Err e))
   \/ (exists h, convertHistoryItems h = Err e))
  /\ exists w',
       loadHistory svc fuel n lastSync lastSyncId w = Some (w', Err e)
       /\ store w' = store w
       /\ exists evs,
            log w'
            = (log w ++ evs
                 ++ [ErrorsError "Failed to load history." e;
                     Dispatch "SERVICE_HISTORY_LOAD_ERROR" e])%list
            /\ quiet evs.
Proof.
  intros Htry Hc.
  destruct (loadHistory_try_error _ _ _ _ _ Htry) as (Hs & (evs & Hl & Hq) & Ho).
  split; [exact Ho|].
  unfold loadHistory, loadHistory_catch. rewrite Htry, Hc.
  eexists. split; [reflexivity|]. simpl. split; [exact Hs|].
  exists evs. split; [|exact Hq]. rewrite Hl, <- app_assoc. reflexivity.
Qed.

End EngineFacts.

(** ** The defaults of the base class *)

Section BaseClass.

Context {Raw S : Type}.
Variables (lastSync : Z) (lastSyncId : string).

(** With nothing buffered, the feed not ended and the watermark not
    reached, a pass over the default [loadHistoryItems] changes nothing
    but the count of fetches, and asks for another pass. *)
Lemma base_pass_changes_nothing (w : World Raw S) (l : Locals Raw) :
  leftoverHistoryItems (this w) = [] ->
  hasReachedHistoryEnd (this w) = false ->
  l_hasReachedLastSyncDate l = false ->
  (0 < itemsToLoad l)%Z ->
  exists w' l',
    loop_body (base_service Raw S) lastSync lastSyncId w l = (w', Ok l')
    /\ loop_again l' = true
    /\ this w' = this w /\ store w' = store w
    /\ log w' = (log w ++ [CallLoadHistoryItems])%list
    /\ l_hasReachedLastSyncDate l' = false
    /\ itemsToLoad l' = itemsToLoad l
    /\ historyItems l' = historyItems l.
Proof.
  intros Hleft Hend Hsync Hpos.
  unfold loop_body, source_page. rewrite Hleft, Hend. simpl.
  do 2 eexists. split; [reflexivity|]. simpl.
  rewrite Hsync. unfold loop_again. simpl.
  apply Z.ltb_lt in Hpos. rewrite Hpos.
  repeat split.
  destruct w as [[lo he sc] st lg]. simpl in *. subst. reflexivity.
Qed.

Lemma base_passes k : forall (w : World Raw S) (l : Locals Raw),
  leftoverHistoryItems (this w) = [] ->
  hasReachedHistoryEnd (this w) = false ->
  l_hasReachedLastSyncDate l = false ->
  (0 < itemsToLoad l)%Z ->
  exists w' l',
    passes (base_service Raw S) k lastSync lastSyncId w l = Some (w', l')
    /\ this w' = this w /\ store w' = store w
    /\ count_fetches (log w') = (count_fetches (log w) + k)%nat
    /\ itemsToLoad l' = itemsToLoad l
    /\ historyItems l' = historyItems l.
Proof.
  induction k as [|k IH]; intros w l Hleft Hend Hsync Hpos.
  - exists w, l. simpl. repeat split. lia.
  - destruct (base_pass_changes_nothing w l Hleft Hend Hsync Hpos)
      as (w1 & l1 & Hb & Ha & Ht & Hs & Hl & Hs1 & Hn & Hh).
    destruct (IH w1 l1) as (w' & l' & Hp & Ht' & Hs' & Hc & Hn' & Hh');
      try congruence; try lia.
    exists w', l'. simpl. rewrite Hb, Ha.
    repeat split; try congruence.
    rewrite Hc, Hl, count_fetches_app.
    change (count_fetches [CallLoadHistoryItems]) with 1%nat. lia.
Qed.

(** C10: [loadHistory] need not terminate.  Called with
    [itemsToLoad > 0], an empty leftover buffer, [hasReachedHistoryEnd]
    false and a stored [hasReachedLastSyncDate] false on a service that
    keeps the default [loadHistoryItems], the loop makes any number of
    passes, one fetch each, accepting nothing, and no amount of fuel
    lets the call return. *)
Theorem C10_base_class_loops_forever (n : Z) (w : World Raw S) :
  (0 < n)%Z ->
  leftoverHistoryItems (this w) = [] ->
  hasReachedHistoryEnd (this w) = false ->
  hasReachedLastSyncDate (store w) = false ->
  (forall k, exists w' l',
      passes (base_service Raw S) k lastSync lastSyncId w (initial_locals n w)
      = Some (w', l')
      /\ this w' = this w /\ store w' = store w
      /\ count_fetches (log w') = (count_fetches (log w) + k)%nat
      /\ itemsToLoad l' = n /\ historyItems l' = [])
  /\ forall fuel,
       loadHistory (base_service Raw S) fuel n lastSync lastSyncId w = None.
Proof.
  intros Hn Hleft Hend Hsync.
  assert (Hk : forall k, exists w' l',
      passes (base_service Raw S) k lastSync lastSyncId w (initial_locals n w)
      = Some (w', l')
      /\ this w' = this w /\ store w' = store w
      /\ count_fetches (log w') = (count_fetches (log w) + k)%nat
      /\ itemsToLoad l' = n /\ historyItems l' = []).
  { intros k. apply (base_passes k w (initial_locals n w)); assumption. }
  split; [exact Hk|].
  intros fuel. unfold loadHistory, loadHistory_try.
  destruct (Hk fuel) as (w' & l' & Hp & _).
  assert (Hnone : history_loop (base_service Raw S) fuel lastSync lastSyncId w
                    (initial_locals n w) = None).
  { apply history_loop_None. rewrite Hp. eauto. }
  rewrite Hnone. reflexivity.
Qed.

End BaseClass.

(** ** Runs *)

(** The scenario of two pages [[e5,e4,e3]], [[e2,e1]] against the
    watermark [(3, "e3")] and a target of ten: [e5] and [e4] are
    accepted and stored, [e3] stays behind in the buffer, one page was
    fetched. *)
Example scenario_run :
  loadHistory Fixture.paged 5 10 3 "e3" Fixture.feed
  = Some ({| this := {| leftoverHistoryItems := [Fixture.e3];
                        hasReachedHistoryEnd := false;
                        subclass := [[Fixture.e2; Fixture.e1]] |};
             store := Fixture.synced;
             log := [CallLoadHistoryItems; CallConvertHistoryItems 2;
                     CallSetData Fixture.synced] |},
          Ok tt).
Proof. vm_compute. reflexivity. Qed.

(** Resuming with [e3] and [e2] buffered and no watermark: the buffer
    is the page, nothing is fetched. *)
Example resumed_run :
  option_map (fun r => count_fetches (log (fst r)))
    (loadHistory Fixture.paged 5 2 0 "" Fixture.resumed)
  = Some 0%nat.
Proof. vm_compute. reflexivity. Qed.

Lemma C1_scenario :
  (0 < 3)%Z /\ "e3" <> ""
  /\ exists accepted behind w2 l',
       loop_body Fixture.paged 3 "e3" Fixture.feed (Fixture.locals0 10)
       = (w2, Ok l')
       /\ [Fixture.e5; Fixture.e4; Fixture.e3] = (accepted ++ behind)%list
       /\ Forall (fun x => @isNewHistoryItem _ _ Fixture.paged x 3%Z "e3" = true) accepted
       /\ historyItems l' = ([] ++ accepted)%list
       /\ match behind with
          | [] =>
              leftoverHistoryItems (this w2)
              = leftoverHistoryItems (this Fixture.fetched)
              /\ l_hasReachedLastSyncDate l' = false
          | x :: _ =>
              @isNewHistoryItem _ _ Fixture.paged x 3%Z "e3" = false
              /\ leftoverHistoryItems (this w2) = behind
              /\ l_hasReachedLastSyncDate l' = true
              /\ loop_again l' = false
          end.
Proof.
  split; [reflexivity|]. split; [discriminate|].
  assert (Hpos : (0 < 3)%Z) by reflexivity.
  assert (Hid : "e3" <> "") by discriminate.
  destruct (C1_scan_stops_at_watermark Fixture.paged 3 "e3" Hpos Hid) as [H _].
  apply (H Fixture.feed Fixture.fetched (Fixture.locals0 10)
           [Fixture.e5; Fixture.e4; Fixture.e3]).
  reflexivity.
Defined.

Lemma C3_target_overshoot :
  loop_body Fixture.paged 0 "" Fixture.feed (Fixture.locals0 2)
  = (Fixture.fetched, Ok Fixture.overshot)
  /\ history_loop Fixture.paged 1 0 "" Fixture.feed (Fixture.locals0 2)
     = Some (Fixture.fetched, Ok Fixture.overshot)
  /\ l_hasReachedEnd Fixture.overshot = false.
Proof.
  assert (Hb : loop_body Fixture.paged 0 "" Fixture.feed (Fixture.locals0 2)
               = (Fixture.fetched, Ok Fixture.overshot)) by reflexivity.
  split; [exact Hb|].
  destruct (C3_loop_condition Fixture.paged 0 "" Fixture.feed (Fixture.locals0 2))
    as (_ & H & _).
  destruct (H _ _ Hb) as (_ & Hstop & _).
  apply (Hstop eq_refl eq_refl); simpl; lia.
Defined.

Lemma C4_fetch_aborted :
  loadHistory_try (Fixture.fetch_fails Fixture.abort) 5 10 0 "" Fixture.feed
  = Some (Fixture.rejected, Err Fixture.abort)
  /\ canceled Fixture.abort = true
  /\ loadHistory (Fixture.fetch_fails Fixture.abort) 5 10 0 "" Fixture.feed
     = Some (Fixture.rejected, Err Fixture.abort)
  /\ store Fixture.rejected = store Fixture.feed.
Proof.
  assert (Htry : loadHistory_try (Fixture.fetch_fails Fixture.abort) 5 10 0 ""
                   Fixture.feed
                 = Some (Fixture.rejected, Err Fixture.abort)) by reflexivity.
  split; [exact Htry|]. split; [reflexivity|].
  destruct (C4_canceled_is_silent (Fixture.fetch_fails Fixture.abort) 0 ""
              5 10 Fixture.feed Fixture.rejected Fixture.abort Htry eq_refl)
    as (_ & Hrun & Hstore & _).
  split; assumption.
Defined.

Lemma C5_fetch_failed :
  loadHistory_try (Fixture.fetch_fails Fixture.http500) 5 10 0 "" Fixture.feed
  = Some (Fixture.rejected, Err Fixture.http500)
  /\ canceled Fixture.http500 = false
  /\ exists w',
       loadHistory (Fixture.fetch_fails Fixture.http500) 5 10 0 "" Fixture.feed
       = Some (w', Err Fixture.http500)
       /\ store w' = store Fixture.feed
       /\ exists evs,
            log w'
            = (log Fixture.feed ++ evs
                 ++ [ErrorsError "Failed to load history." Fixture.http500;
                     Dispatch "SERVICE_HISTORY_LOAD_ERROR" Fixture.http500])%list
            /\ quiet evs.
Proof.
  assert (Htry : loadHistory_try (Fixture.fetch_fails Fixture.http500) 5 10 0 ""
                   Fixture.feed
                 = Some (Fixture.rejected, Err Fixture.http500)) by reflexivity.
  split; [exact Htry|]. split; [reflexivity|].
  apply (C5_error_is_reported_and_rethrown (Fixture.fetch_fails Fixture.http500)
           0 "" 5 10 Fixture.feed Fixture.rejected Fixture.http500 Htry eq_refl).
Defined.

Lemma C10_idle_service :
  (0 < 5)%Z
  /\ leftoverHistoryItems (this Fixture.idle) = []
  /\ hasReachedHistoryEnd (this Fixture.idle) = false
  /\ hasReachedLastSyncDate (store Fixture.idle) = false
  /\ forall fuel, loadHistory (base_service unit unit) fuel 5 0 "" Fixture.idle = None.
Proof.
  repeat (split; [reflexivity|]).
  apply (C10_base_class_loops_forever 0 "" 5 Fixture.idle);
    reflexivity.
Defined.

(** * Further properties *)

(** ** The registry *)

(** X1: a service registered under an id is the one [getServiceApi]
    returns for it; registering again under the same id replaces it;
    the other ids are not affected. *)
Theorem registry_round_trip {A} (id id' : string) (api api' : A)
    (serviceApis : gmap string A) :
  getServiceApi id (registerServiceApi id api serviceApis) = Ok api
  /\ registerServiceApi id api' (registerServiceApi id api serviceApis)
     = registerServiceApi id api' serviceApis
  /\ (id <> id' ->
      getServiceApi id' (registerServiceApi id api serviceApis)
      = getServiceApi id' serviceApis).
Proof.
  unfold getServiceApi, registerServiceApi. split; [|split].
  - rewrite lookup_insert_eq. reflexivity.
  - apply insert_insert_eq.
  - intros Hne. rewrite lookup_insert_ne by exact Hne. reflexivity.
Qed.

Lemma registry_round_trip_run :
  "netflix" <> "hbo"
  /\ getServiceApi "hbo"
       (registerServiceApi "netflix" 1%nat (registerServiceApi "hbo" 2%nat ∅))
     = Ok 2%nat.
Proof.
  assert (Hne : "netflix" <> "hbo") by discriminate.
  split; [exact Hne|].
  destruct (registry_round_trip "netflix" "hbo" 1%nat 1%nat
              (registerServiceApi "hbo" 2%nat ∅)) as (_ & _ & H).
  rewrite (H Hne).
  apply (registry_round_trip "hbo" "hbo" 2%nat 2%nat ∅).
Defined.

(** X2: [getServiceApi] throws exactly for the ids nothing was
    registered under, and what it throws is a plain error (not a
    canceled one) naming the id. *)
Theorem registry_missing {A} (id : string) (serviceApis : gmap string A) :
  (serviceApis !! id = None
   <-> getServiceApi id serviceApis
       = Err {| canceled := false;
                message := "API not registered for " ++ id |})
  /\ (is_ok (getServiceApi id serviceApis) = true <-> id ∈ dom serviceApis).
Proof.
  unfold getServiceApi. rewrite elem_of_dom.
  destruct (serviceApis !! id) as [api|]; split; split;
    try discriminate; try reflexivity; eauto.
  intros [x Hx]. discriminate.
Qed.

(** X3: a service just constructed is the one its id is registered
    under, and its first pass fetches: with the buffer empty and the
    end flag down as the constructor leaves them, the page of the pass
    is what [loadHistoryItems] returns for the initial state. *)
Theorem constructed_service_fetches {Raw S} (svc : Service Raw S)
    (id : string) (s : S) (serviceApis : gmap string (Instance Raw S))
    (st : SyncData) (lg : list Event) :
  let '(api, reg) := new_ServiceApi id s serviceApis in
  let w := {| this := api; store := st; log := lg |} in
  getServiceApi id reg = Ok api
  /\ log (fst (source_page svc w)) = (lg ++ [CallLoadHistoryItems])%list
  /\ snd (source_page svc w) = snd (loadHistoryItems s false)
  /\ leftoverHistoryItems (this (fst (source_page svc w))) = [].
Proof.
  simpl. unfold getServiceApi, registerServiceApi, source_page. simpl.
  rewrite lookup_insert_eq.
  destruct (loadHistoryItems s false) as [[s' b'] r]. auto.
Qed.

(** ** Slugs *)

Section SlugShape.

Lemma lower_char_shape c :
  is_upper (Str.lower_char c) = false
  /\ (is_upper c = false -> Str.lower_char c = c).
Proof.
  destruct c as [[] [] [] [] [] [] [] []]; vm_compute;
    (split; [reflexivity|intros H; try discriminate H; reflexivity]).
Qed.

Lemma word_or_dash c :
  slug_char c = true ->
  (Str.is_word c = true /\ is_upper c = false /\ Ascii.eqb c Str.dash = false)
  \/ (Str.is_word c = false /\ c = Str.dash).
Proof.
  unfold slug_char. destruct (Str.is_word c) eqn:Hw; simpl.
  - rewrite (word_not_dash c Hw), orb_false_r, negb_true_iff. auto.
  - intros H. right. split; [reflexivity|]. apply Ascii.eqb_eq, H.
Qed.

Lemma runs_made_of_slug_chars b s :
  all_chars slug_char (Claimed.replace_runs_from b (Str.toLowerCase s)) = true.
Proof.
  revert b. induction s as [|c r IH]; intros b; simpl; [reflexivity|].
  destruct (Str.is_word (Str.lower_char c)) eqn:Hw.
  - simpl. rewrite IH, andb_true_r. unfold slug_char.
    rewrite Hw, (proj1 (lower_char_shape c)). reflexivity.
  - destruct b; simpl; rewrite IH; reflexivity.
Qed.

Lemma runs_have_single_dashes s : forall b b',
  (b = true -> b' = true) ->
  single_dashes_from b (Claimed.replace_runs_from b' s) = true.
Proof.
  induction s as [|c r IH]; intros b b' Hb; simpl; [reflexivity|].
  destruct (Str.is_word c) eqn:Hw.
  - simpl. rewrite (word_not_dash c Hw). apply IH. discriminate.
  - destruct b'.
    + apply IH. reflexivity.
    + destruct b; [discriminate (Hb eq_refl)|].
      simpl. apply IH. reflexivity.
Qed.

Lemma runs_are_shorter b s :
  (String.length (Claimed.replace_runs_from b s) <= String.length s)%nat.
Proof.
  revert b. induction s as [|c r IH]; intros b; simpl; [lia|].
  destruct (Str.is_word c); [|destruct b]; simpl;
    try (specialize (IH false); lia); specialize (IH true); lia.
Qed.

Lemma toLowerCase_length s : String.length (Str.toLowerCase s) = String.length s.
Proof. induction s as [|c r IH]; simpl; [reflexivity|]. rewrite IH. reflexivity. Qed.

Lemma toLowerCase_fixed s :
  all_chars slug_char s = true -> Str.toLowerCase s = s.
Proof.
  induction s as [|c r IH]; simpl; [reflexivity|].
  intros H. apply andb_prop in H. destruct H as [Hc Hr].
  rewrite (IH Hr). f_equal.
  destruct (word_or_dash c Hc) as [(_ & Hu & _)|[_ ->]]; [|reflexivity].
  apply lower_char_shape, Hu.
Qed.

Lemma runs_fixed s : forall b,
  all_chars slug_char s = true -> single_dashes_from b s = true ->
  Claimed.replace_runs_from b s = s.
Proof.
  induction s as [|c r IH]; intros b; simpl; [reflexivity|].
  intros H. apply andb_prop in H. destruct H as [Hc Hr].
  destruct (word_or_dash c Hc) as [(Hw & _ & Hd)|[Hw ->]]; rewrite Hw.
  - rewrite Hd. intros Hs. rewrite (IH false Hr Hs). reflexivity.
  - change (Ascii.eqb Str.dash Str.dash) with true. cbv iota.
    intros Hs. apply andb_prop in Hs. destruct Hs as [Hb Hs].
    apply negb_true_iff in Hb. subst b. rewrite (IH true Hr Hs). reflexivity.
Qed.

End SlugShape.

(** X4: a slug consists of the characters [a-z0-9_-] only, holds no
    two dashes in a row, and is not longer than the title it was made
    from. *)
Theorem slug_shape (s : string) :
  all_chars slug_char (ServiceApi.getTraktCacheStr s) = true
  /\ single_dashes (ServiceApi.getTraktCacheStr s) = true
  /\ (String.length (ServiceApi.getTraktCacheStr s) <= String.length s)%nat.
Proof.
  unfold ServiceApi.getTraktCacheStr, Str.replace_dash_runs, single_dashes.
  rewrite dash_runs_are_non_word_runs.
  split; [apply runs_made_of_slug_chars|].
  split; [apply runs_have_single_dashes; auto|].
  rewrite <- (toLowerCase_length s). apply runs_are_shorter.
Qed.

(** X5: the strings [getTraktCacheStr] leaves as they are are exactly
    those of that shape; so slugging a slug changes nothing, and a
    title and its lowercase form have the same slug. *)
Theorem slug_fixed_points (s : string) :
  (ServiceApi.getTraktCacheStr s = s
   <-> all_chars slug_char s = true /\ single_dashes s = true)
  /\ ServiceApi.getTraktCacheStr (ServiceApi.getTraktCacheStr s)
     = ServiceApi.getTraktCacheStr s
  /\ ServiceApi.getTraktCacheStr (Str.toLowerCase s)
     = ServiceApi.getTraktCacheStr s.
Proof.
  assert (Hfix : forall t, all_chars slug_char t = true ->
                           single_dashes t = true ->
                           ServiceApi.getTraktCacheStr t = t).
  { intros t Ha Hd.
    unfold ServiceApi.getTraktCacheStr, Str.replace_dash_runs.
    rewrite dash_runs_are_non_word_runs, (toLowerCase_fixed t Ha).
    apply runs_fixed; assumption. }
  assert (Hshape : forall t,
            all_chars slug_char (ServiceApi.getTraktCacheStr t) = true
            /\ single_dashes (ServiceApi.getTraktCacheStr t) = true).
  { intros t. unfold ServiceApi.getTraktCacheStr, Str.replace_dash_runs, single_dashes.
    rewrite dash_runs_are_non_word_runs.
    split; [apply runs_made_of_slug_chars|apply runs_have_single_dashes; auto]. }
  split; [|split].
  - split.
    + intros H. rewrite <- H. apply Hshape.
    + intros [Ha Hd]. apply Hfix; assumption.
  - apply Hfix; apply Hshape.
  - unfold ServiceApi.getTraktCacheStr. f_equal. f_equal.
    induction s as [|c r IH]; simpl; [reflexivity|]. rewrite IH. f_equal.
    apply lower_char_shape, lower_char_shape.
Qed.

(** X6: the key of a show and the key of a movie are never the same:
    the former starts with [/shows/], the latter with [/movies/]. *)
Theorem show_and_movie_keys_differ (a b : Item) :
  itemType a = Show -> itemType b = Movie ->
  (exists rest, ServiceApi.getTraktCacheId a = "/shows/" ++ rest)
  /\ (exists rest, ServiceApi.getTraktCacheId b = "/movies/" ++ rest)
  /\ ServiceApi.getTraktCacheId a <> ServiceApi.getTraktCacheId b.
Proof.
  intros Ha Hb. unfold ServiceApi.getTraktCacheId. rewrite Ha, Hb.
  split; [eexists; reflexivity|]. split; [eexists; reflexivity|].
  intros H. cbn [String.append] in H. discriminate H.
Qed.

Lemma show_and_movie_keys_differ_run :
  ServiceApi.getTraktCacheId (Fixture.show "Up" None None None)
  <> ServiceApi.getTraktCacheId (Fixture.movie "Up" None).
Proof.
  apply (show_and_movie_keys_differ (Fixture.show "Up" None None None)
           (Fixture.movie "Up" None) eq_refl eq_refl).
Defined.

(** ** Resolution of one item *)

Section ItemCall.

Context {Suggestion SavedTraktItem : Type}.
Variable sync : Item -> option Z * result unit.
Variable load : SavedTraktItem -> TraktItem.
Variable save : TraktItem -> SavedTraktItem.

Lemma load_watched_item k item :
  exists tf, run_item (load_watched sync save k item) = set_trakt item tf.
Proof.
  unfold load_watched. destruct item as [ty ti y se ep et db tr].
  destruct tr as [| |t]; simpl; try (eexists; reflexivity).
  destruct (watchedAt t); [eexists; reflexivity|].
  destruct (sync _) as [w [u|e]]; eexists; reflexivity.
Qed.

Lemma load_watched_write k item k' v :
  run_write (load_watched sync save k item) = Some (k', v) ->
  k' = k
  /\ run_promise (load_watched sync save k item) = Ok tt
  /\ exists t, trakt (run_item (load_watched sync save k item)) = TValue t
               /\ v = save t.
Proof.
  unfold load_watched. destruct (trakt item) as [| |t]; try discriminate.
  destruct (watchedAt t); try discriminate.
  destruct (sync item) as [w [u|e]]; simpl; [|discriminate].
  intros [= <- <-]. split; [reflexivity|]. split; [reflexivity|].
  eexists. split; reflexivity.
Qed.

(** X7: an item that has a catalog entry is resolved without the
    search, the correction or the cache: whatever they are, the call
    leaves the same; and when the entry has its [watchedAt], the call
    changes nothing and writes nothing. *)
Theorem entry_is_not_searched_again
    (find find' : Item -> option Suggestion -> result TraktField)
    (item : Item) (t : TraktItem)
    (cache cache' : gmap string SavedTraktItem) (c c' : option Suggestion) :
  trakt item = TValue t ->
  loadTraktItemHistory find sync load save item cache c
  = loadTraktItemHistory find' sync load save item cache' c'
  /\ (forall w, watchedAt t = Some w ->
        loadTraktItemHistory find sync load save item cache c
        = {| run_item := item; run_write := None; run_promise := Ok tt |}).
Proof.
  intros Ht. unfold loadTraktItemHistory, loadTraktItemHistory_try.
  rewrite Ht. simpl. split; [reflexivity|].
  intros w Hw. unfold load_watched. rewrite Ht, Hw. reflexivity.
Qed.

Variable find : Item -> option Suggestion -> result TraktField.

Abbreviation tried := (loadTraktItemHistory_try find sync load save).
Abbreviation called := (loadTraktItemHistory find sync load save).

Lemma tried_item item cache c :
  exists tf, run_item (tried item cache c) = set_trakt item tf.
Proof.
  unfold loadTraktItemHistory_try.
  destruct (truthy_trakt (trakt item)); [apply load_watched_item|].
  destruct (choose_source _ _) as [c'|saved].
  - destruct (find item c') as [tf|e].
    + destruct (load_watched_item (ServiceApi.getTraktCacheId item)
                  (set_trakt item tf)) as [tf' H].
      exists tf'. rewrite H. reflexivity.
    + exists (trakt item). destruct item. reflexivity.
  - destruct (load_watched_item (ServiceApi.getTraktCacheId item)
                (set_trakt item (TValue (load saved)))) as [tf' H].
    exists tf'. rewrite H. reflexivity.
Qed.

Lemma tried_write item cache c k v :
  run_write (tried item cache c) = Some (k, v) ->
  k = ServiceApi.getTraktCacheId item
  /\ run_promise (tried item cache c) = Ok tt
  /\ exists t, trakt (run_item (tried item cache c)) = TValue t /\ v = save t.
Proof.
  unfold loadTraktItemHistory_try.
  destruct (truthy_trakt (trakt item)); [apply load_watched_write|].
  destruct (choose_source _ _) as [c'|saved]; [|apply load_watched_write].
  destruct (find item c'); [apply load_watched_write|discriminate].
Qed.

(** X8: a call changes nothing of its item but the catalog entry, so
    the item keeps its cache key; and when the call assigns to the
    cache, it does so under that key, and what it assigns is the saved
    form of the entry the item ends with. *)
Theorem call_writes_under_own_key (item : Item)
    (cache : gmap string SavedTraktItem) (c : option Suggestion) :
  (exists tf, run_item (called item cache c) = set_trakt item tf)
  /\ ServiceApi.getTraktCacheId (run_item (called item cache c))
     = ServiceApi.getTraktCacheId item
  /\ forall k v,
       run_write (called item cache c) = Some (k, v) ->
       k = ServiceApi.getTraktCacheId item
       /\ exists t, trakt (run_item (called item cache c)) = TValue t
                    /\ v = save t.
Proof.
  assert (Hitem : exists tf, run_item (called item cache c) = set_trakt item tf).
  { unfold loadTraktItemHistory.
    destruct (tried_item item cache c) as [tf Htf].
    destruct (run_promise (tried item cache c)); [eauto|].
    simpl. rewrite Htf. unfold discard_watchedAt.
    destruct tf; simpl; eexists; reflexivity. }
  split; [exact Hitem|]. split.
  - destruct Hitem as [tf ->]. reflexivity.
  - intros k v. unfold loadTraktItemHistory.
    destruct (run_promise (tried item cache c)) as [u|e] eqn:E.
    + intros Hw. destruct (tried_write _ _ _ _ _ Hw) as (Hk & _ & Ht).
      split; assumption.
    + simpl. intros Hw.
      destruct (tried_write _ _ _ _ _ Hw) as (_ & Hp & _). congruence.
Qed.

(** X9: what one item's call saved serves the next item of the same
    key.  If the saved form loads back to the entry it was saved from,
    an item without a catalog entry and without a correction that has
    the key of an earlier write gets the entry of that write from the
    cache; when that entry has its [watchedAt], nothing else happens:
    no write, no failure. *)
Theorem cache_serves_same_key (item1 item2 : Item)
    (cache : gmap string SavedTraktItem) (c1 : option Suggestion)
    (k : string) (v : SavedTraktItem) :
  (forall t, load (save t) = t) ->
  ServiceApi.getTraktCacheId item2 = ServiceApi.getTraktCacheId item1 ->
  truthy_trakt (trakt item2) = false ->
  run_write (called item1 cache c1) = Some (k, v) ->
  exists t,
    trakt (run_item (called item1 cache c1)) = TValue t
    /\ tried item2 (<[k := v]> cache) None
       = load_watched sync save k (set_trakt item2 (TValue t))
    /\ (forall w, watchedAt t = Some w ->
          called item2 (<[k := v]> cache) None
          = {| run_item := set_trakt item2 (TValue t);
               run_write := None; run_promise := Ok tt |}).
Proof.
  intros Hround Hkey Hno Hw.
  destruct (call_writes_under_own_key item1 cache c1) as (_ & _ & H).
  destruct (H k v Hw) as (Hk & t & Ht & Hv).
  exists t. split; [exact Ht|].
  assert (Htry : tried item2 (<[k := v]> cache) None
                 = load_watched sync save k (set_trakt item2 (TValue t))).
  { unfold loadTraktItemHistory_try. rewrite Hno, Hkey, <- Hk.
    rewrite lookup_insert_eq. simpl. rewrite Hv, Hround. reflexivity. }
  split; [exact Htry|].
  intros w Hwa. unfold loadTraktItemHistory. rewrite Htry.
  unfold load_watched. simpl. rewrite Hwa. reflexivity.
Qed.

End ItemCall.

Lemma entry_is_not_searched_again_run :
  trakt Sample.seen = TValue {| traktId := 9; watchedAt := Some 50%Z |}
  /\ loadTraktItemHistory Fixture.find Fixture.sync
       (fun t : TraktItem => t) (fun t => t) Sample.seen ∅ (Some 42%Z)
     = {| run_item := Sample.seen; run_write := None; run_promise := Ok tt |}.
Proof.
  split; [reflexivity|].
  destruct (entry_is_not_searched_again Fixture.sync
              (fun t : TraktItem => t) (fun t => t)
              Fixture.find Fixture.find Sample.seen
              {| traktId := 9; watchedAt := Some 50%Z |}
              ∅ ∅ (Some 42%Z) (Some 42%Z) eq_refl) as [_ H].
  apply (H 50%Z eq_refl).
Defined.

Lemma call_writes_under_own_key_run :
  run_write (loadTraktItemHistory Fixture.find Fixture.sync
               (fun t : TraktItem => t) (fun t => t) Fixture.up ∅ None)
  = Some ("/movies/up-2009", {| traktId := 7; watchedAt := Some 100%Z |})
  /\ "/movies/up-2009" = ServiceApi.getTraktCacheId Fixture.up.
Proof.
  assert (Hw : run_write (loadTraktItemHistory Fixture.find Fixture.sync
                            (fun t : TraktItem => t) (fun t => t)
                            Fixture.up ∅ None)
               = Some ("/movies/up-2009",
                       {| traktId := 7; watchedAt := Some 100%Z |}))
    by (vm_compute; reflexivity).
  split; [exact Hw|].
  destruct (call_writes_under_own_key Fixture.sync
              (fun t : TraktItem => t) (fun t => t) Fixture.find
              Fixture.up ∅ None) as (_ & _ & H).
  apply (H _ _ Hw).
Defined.

Lemma cache_serves_same_key_run :
  exists t,
    trakt (run_item (loadTraktItemHistory Fixture.find Fixture.sync
                       (fun t : TraktItem => t) (fun t => t)
                       Fixture.up ∅ None)) = TValue t
    /\ loadTraktItemHistory_try Fixture.find Fixture.sync
         (fun t : TraktItem => t) (fun t => t) Fixture.up
         (<["/movies/up-2009" := {| traktId := 7; watchedAt := Some 100%Z |}]> ∅)
         None
       = load_watched Fixture.sync (fun t => t) "/movies/up-2009"
           (set_trakt Fixture.up (TValue t)).
Proof.
  destruct (cache_serves_same_key Fixture.sync
              (fun t : TraktItem => t) (fun t => t) Fixture.find
              Fixture.up Fixture.up ∅ None "/movies/up-2009"
              {| traktId := 7; watchedAt := Some 100%Z |}
              (fun t => eq_refl) eq_refl eq_refl)
    as (t & Ht & Htry & _).
  - vm_compute. reflexivity.
  - exists t. split; assumption.
Defined.

(** ** Resolution of a batch *)

Section Batch.

Context {Suggestion SavedTraktItem : Type}.
Variable find : Item -> option Suggestion -> result TraktField.
Variable sync : Item -> option Z * result unit.
Variable load : SavedTraktItem -> TraktItem.
Variable save : TraktItem -> SavedTraktItem.

Abbreviation batch := (loadTraktHistory find sync load save).
Abbreviation call_in b :=
  (fun item =>
     loadTraktItemHistory find sync load save item
       (nullish (traktCache (storage b)) ∅)
       (lookup_correction (corrections (storage b)) (databaseId item))).

Lemma missing_filter_nil (its : list Item) :
  Forall (fun item => is_missing item = false) its
  <-> filter (fun item => is_missing item = true) its = [].
Proof.
  induction its as [|x its IH]; [split; [reflexivity|constructor]|].
  rewrite filter_cons. destruct (decide (is_missing x = true)) as [Hx|Hx].
  - split; [|discriminate]. intros H. inversion H. congruence.
  - rewrite <- IH. split.
    + intros H. inversion H. assumption.
    + intros H. constructor; [apply not_true_is_false, Hx|exact H].
Qed.

Lemma missing_filter_cons (its : list Item) item :
  In item its -> is_missing item = true ->
  (length (filter (fun it => is_missing it = true) its) =? 0)%nat = false.
Proof.
  intros Hin Hm.
  assert (H : item ∈ filter (fun it => is_missing it = true) its).
  { apply list_elem_of_filter. split; [exact Hm|]. apply list_elem_of_In, Hin. }
  destruct (filter _ its); [inversion H|reflexivity].
Qed.

(** X10: a batch in which no item lacks a catalog entry or a
    [watchedAt] returns at once: the storage is not read, nothing is
    reported, the items are as they were.  An item whose entry is
    [null] counts as not lacking one. *)
Theorem nothing_missing_nothing_done (its : list Item)
    (b : Browser Suggestion SavedTraktItem) :
  Forall (fun item => trakt item = TNull
                      \/ exists t w, trakt item = TValue t
                                     /\ watchedAt t = Some w) its ->
  batch its b
  = {| out_items := its; out_browser := b; out_log := [];
       out_promise := Ok tt |}.
Proof.
  intros H. unfold loadTraktHistory.
  assert (Hnil : filter (fun item => is_missing item = true) its = []).
  { apply missing_filter_nil. eapply Forall_impl; [exact H|].
    intros item [Hn|(t & w & Ht & Hw)]; unfold is_missing.
    - rewrite Hn. reflexivity.
    - rewrite Ht, Hw. reflexivity. }
  rewrite Hnil. reflexivity.
Qed.

(** X11: whatever the storage does, a batch keeps the number and the
    order of its items and does not touch the items that lack nothing,
    those with a [null] entry among them. *)
Theorem complete_items_are_kept (its : list Item)
    (b : Browser Suggestion SavedTraktItem) :
  length (out_items (batch its b)) = length its
  /\ forall i item,
       its !! i = Some item -> is_missing item = false ->
       out_items (batch its b) !! i = Some item.
Proof.
  assert (H : out_items (batch its b) = its
              \/ out_items (batch its b)
                 = settle find sync load save (corrections (storage b))
                     (nullish (traktCache (storage b)) ∅) its).
  { unfold loadTraktHistory. destruct (length _ =? 0)%nat; [left; reflexivity|].
    destruct (get_fault b); [left; reflexivity|]. right.
    destruct (Promise_all _); [destruct (set_fault b)|]; reflexivity. }
  destruct H as [-> | ->].
  - split; [reflexivity|]. intros i item Hi _. exact Hi.
  - split; [unfold settle; apply length_map|].
    intros i item Hi Hm. rewrite (settle_lookup _ _ _ _ _ _ _ _ _ Hi), Hm.
    reflexivity.
Qed.

(** X12: when the storage cannot be read, no item is resolved and
    nothing is written; the error is reported to the error channel and
    dispatched as [TRAKT_HISTORY_LOAD_ERROR] unless it is a canceled
    one, and in either case it is swallowed: the promise of the batch
    is fulfilled. *)
Theorem unreadable_storage (its : list Item)
    (b : Browser Suggestion SavedTraktItem) (item : Item) (e : Error) :
  In item its -> is_missing item = true ->
  get_fault b = Some e ->
  batch its b
  = {| out_items := its; out_browser := b;
       out_log :=
         CallStorageGet
         :: (if canceled e then []
             else [ErrorsError "Failed to load Trakt history." e;
                   Dispatch "TRAKT_HISTORY_LOAD_ERROR" e]);
       out_promise := Ok tt |}.
Proof.
  intros Hin Hm Hget. unfold loadTraktHistory.
  rewrite (missing_filter_cons its item Hin Hm), Hget. reflexivity.
Qed.

(** X13: when the cache cannot be written back, the items stay
    resolved as their calls left them, the storage keeps what it had,
    and the error is reported unless canceled and swallowed. *)
Theorem unwritable_storage (its : list Item)
    (b : Browser Suggestion SavedTraktItem) (item : Item) (e : Error) :
  In item its -> is_missing item = true ->
  get_fault b = None -> set_fault b = Some e ->
  let o := batch its b in
  out_browser o = b
  /\ out_promise o = Ok tt
  /\ out_log o
     = ([CallStorageGet; CallStorageSet]
        ++ (if canceled e then []
            else [ErrorsError "Failed to load Trakt history." e;
                  Dispatch "TRAKT_HISTORY_LOAD_ERROR" e]))%list
  /\ forall i it, its !! i = Some it ->
       out_items o !! i
       = Some (if is_missing it then run_item (call_in b it) else it).
Proof.
  intros Hin Hm Hget Hset o. subst o. unfold loadTraktHistory.
  rewrite (missing_filter_cons its item Hin Hm), Hget.
  pose proof (fan_out_fulfilled find sync load save (corrections (storage b))
                (nullish (traktCache (storage b)) ∅)
                (filter (fun it => is_missing it = true) its)) as Hall.
  destruct (Promise_all _); [|discriminate Hall].
  rewrite Hset. simpl. repeat split.
  intros i it Hi. apply settle_lookup, Hi.
Qed.

Lemma writes_land (ws : list (option (string * SavedTraktItem))) :
  forall (cache : gmap string SavedTraktItem) k,
    (foldl apply_write cache ws !! k = cache !! k
     /\ forall v, ~ In (Some (k, v)) ws)
    \/ exists v, In (Some (k, v)) ws /\ foldl apply_write cache ws !! k = Some v.
Proof.
  induction ws as [|w ws IH]; intros cache k; simpl.
  - left. split; [reflexivity|]. intros v [].
  - destruct (IH (apply_write cache w) k)
      as [[Heq Hnot]|(v & Hin & Hv)].
    + destruct w as [[k' v']|]; simpl in Heq; simpl.
      * destruct (decide (k' = k)) as [->|Hne].
        -- right. exists v'. split; [left; reflexivity|].
           rewrite Heq. apply lookup_insert_eq.
        -- left. split; [rewrite Heq; apply lookup_insert_ne, Hne|].
           intros v [[= H _]|H]; [congruence|exact (Hnot v H)].
      * left. split; [exact Heq|].
        intros v [H|H]; [discriminate|exact (Hnot v H)].
    + right. exists v. split; [right; exact Hin|exact Hv].
Qed.

(** X14: after a batch that went through, the storage holds the cache
    it had with the assignments of the calls on top and the
    corrections it had: a key holds either what one of the calls on a
    lacking item of the batch assigned to it, or, if none assigned to
    it, what it held before. *)
Theorem persisted_cache (its : list Item)
    (b : Browser Suggestion SavedTraktItem) (item : Item) :
  In item its -> is_missing item = true ->
  get_fault b = None -> set_fault b = None ->
  exists cache',
    storage (out_browser (batch its b))
    = {| corrections := corrections (storage b); traktCache := Some cache' |}
    /\ forall k,
         (cache' !! k = nullish (traktCache (storage b)) ∅ !! k
          /\ forall it v, In it its -> is_missing it = true ->
               run_write (call_in b it) <> Some (k, v))
         \/ exists it v,
              In it its /\ is_missing it = true
              /\ run_write (call_in b it) = Some (k, v)
              /\ cache' !! k = Some v.
Proof.
  intros Hin Hm Hget Hset. unfold loadTraktHistory.
  rewrite (missing_filter_cons its item Hin Hm), Hget.
  pose proof (fan_out_fulfilled find sync load save (corrections (storage b))
                (nullish (traktCache (storage b)) ∅)
                (filter (fun it => is_missing it = true) its)) as Hall.
  destruct (Promise_all _); [|discriminate Hall].
  rewrite Hset. simpl. eexists. split; [reflexivity|].
  intros k.
  assert (Hmem : forall v,
            In (Some (k, v))
              (map run_write
                 (fan_out find sync load save (corrections (storage b))
                    (nullish (traktCache (storage b)) ∅)
                    (filter (fun it => is_missing it = true) its)))
            <-> exists it, In it its /\ is_missing it = true
                           /\ run_write (call_in b it) = Some (k, v)).
  { intros v. unfold fan_out. rewrite map_map, in_map_iff. split.
    - intros (it & Hw & Hit). apply list_elem_of_In, list_elem_of_filter in Hit.
      destruct Hit as [Hmi Hit]. exists it. rewrite <- list_elem_of_In. auto.
    - intros (it & Hit & Hmi & Hw). exists it. split; [exact Hw|].
      apply list_elem_of_In, list_elem_of_filter. rewrite list_elem_of_In. auto. }
  destruct (writes_land
              (map run_write
                 (fan_out find sync load save (corrections (storage b))
                    (nullish (traktCache (storage b)) ∅)
                    (filter (fun it => is_missing it = true) its)))
              (nullish (traktCache (storage b)) ∅) k)
    as [[Heq Hnot]|(v & Hv & Hl)].
  - left. split; [exact Heq|]. intros it v Hit Hmi Hw.
    apply (Hnot v), Hmem. eauto.
  - right. apply Hmem in Hv. destruct Hv as (it & Hit & Hmi & Hw).
    exists it, v. auto.
Qed.

End Batch.

Lemma nothing_missing_nothing_done_run :
  loadTraktHistory Fixture.find Fixture.sync (fun t : TraktItem => t)
    (fun t => t) [Sample.seen; Sample.not_found] Sample.unreadable
  = {| out_items := [Sample.seen; Sample.not_found];
       out_browser := Sample.unreadable; out_log := [];
       out_promise := Ok tt |}.
Proof.
  apply (nothing_missing_nothing_done Fixture.find Fixture.sync
           (fun t : TraktItem => t) (fun t => t)).
  constructor; [right; do 2 eexists; split; reflexivity|].
  constructor; [left; reflexivity|constructor].
Defined.

Lemma complete_items_are_kept_run :
  out_items (Fixture.batch [Fixture.up; Sample.not_found]
               (Fixture.browser Fixture.no_storage)) !! 1%nat
  = Some Sample.not_found.
Proof.
  apply (complete_items_are_kept Fixture.find Fixture.sync
           (fun t : TraktItem => t) (fun t => t)
           [Fixture.up; Sample.not_found]
           (Fixture.browser Fixture.no_storage)); reflexivity.
Defined.

Lemma unreadable_storage_run :
  out_items (Fixture.batch Fixture.three Sample.unreadable) = Fixture.three
  /\ out_log (Fixture.batch Fixture.three Sample.unreadable)
     = [CallStorageGet;
        ErrorsError "Failed to load Trakt history." Fixture.http500;
        Dispatch "TRAKT_HISTORY_LOAD_ERROR" Fixture.http500].
Proof.
  unfold Fixture.batch.
  rewrite (unreadable_storage Fixture.find Fixture.sync
             (fun t : TraktItem => t) (fun t => t)
             Fixture.three Sample.unreadable (Fixture.movie "Up" None)
             Fixture.http500 (or_introl eq_refl) eq_refl eq_refl).
  split; reflexivity.
Defined.

Lemma unwritable_storage_run :
  out_browser (Fixture.batch Fixture.three Sample.read_only) = Sample.read_only
  /\ out_promise (Fixture.batch Fixture.three Sample.read_only) = Ok tt.
Proof.
  destruct (unwritable_storage Fixture.find Fixture.sync
              (fun t : TraktItem => t) (fun t => t)
              Fixture.three Sample.read_only (Fixture.movie "Up" None)
              Fixture.http500 (or_introl eq_refl) eq_refl eq_refl eq_refl)
    as (H1 & H2 & _).
  split; assumption.
Defined.

Lemma persisted_cache_run :
  exists cache',
    storage (out_browser (Fixture.batch Fixture.three
                            (Fixture.browser Fixture.no_storage)))
    = {| corrections := None; traktCache := Some cache' |}.
Proof.
  destruct (persisted_cache Fixture.find Fixture.sync
              (fun t : TraktItem => t) (fun t => t)
              Fixture.three (Fixture.browser Fixture.no_storage)
              (Fixture.movie "Up" None)
              (or_introl eq_refl) eq_refl eq_refl eq_refl)
    as (cache' & H & _).
  exists cache'. exact H.
Defined.

(** ** More on the paging engine *)

Section EngineMore.

Context {Raw S : Type} (svc : Service Raw S).
Variables (lastSync : Z) (lastSyncId : string).

Lemma filter_page_no_watermark (page : list Raw) :
  watermark_set lastSync lastSyncId = false ->
  filter_page svc lastSync lastSyncId page = (page, None).
Proof. intros H. unfold filter_page. rewrite H. reflexivity. Qed.


Lemma pass_flag_is_sticky (w w' : World Raw S) (l l' : Locals Raw) :
  loop_body svc lastSync lastSyncId w l = (w', Ok l') ->
  l_hasReachedLastSyncDate l = true ->
  l_hasReachedLastSyncDate l' = true /\ loop_again l' = false.
Proof.
  unfold loop_body.
  destruct (source_page svc w) as [w1 [page|e]]; [|discriminate].
  unfold process_page. intros H Hflag.
  assert (Hl : l_hasReachedLastSyncDate l' = true).
  { destruct (0 <? length page)%nat.
    - destruct (filter_page _ _ _ _) as [f [rest|]];
        injection H as <- <-; simpl; auto.
    - injection H as <- <-. exact Hflag. }
  split; [exact Hl|].
  assert (He : l_hasReachedEnd l' = true).
  { destruct (0 <? length page)%nat.
    - destruct (filter_page _ _ _ _) as [f [rest|]];
        injection H as <- <-; simpl; [apply orb_true_r|].
      rewrite Hflag. apply orb_true_r.
    - injection H as <- <-. simpl. rewrite Hflag. apply orb_true_r. }
  unfold loop_again. rewrite He. reflexivity.
Qed.

Lemma history_loop_end fuel : forall (w w' : World Raw S) (l l' : Locals Raw),
  history_loop svc fuel lastSync lastSyncId w l = Some (w', Ok l') ->
  l_hasReachedEnd l'
  = hasReachedHistoryEnd (this w') || l_hasReachedLastSyncDate l'
  /\ (l_hasReachedLastSyncDate l = true -> l_hasReachedLastSyncDate l' = true).
Proof.
  induction fuel as [|fuel IH]; intros w w' l l'; simpl; [discriminate|].
  destruct (loop_body svc lastSync lastSyncId w l) as [w1 [l1|e]] eqn:E;
    [|discriminate].
  destruct (loop_again l1) eqn:A.
  - intros H. destruct (IH _ _ _ _ H) as [He Hs]. split; [exact He|].
    intros Hflag. destruct (pass_flag_is_sticky _ _ _ _ E Hflag). congruence.
  - intros [= <- <-]. split.
    + apply (loop_body_accepts svc lastSync lastSyncId _ _ _ _ E).
    + intros Hflag. apply (pass_flag_is_sticky _ _ _ _ E Hflag).
Qed.


End EngineMore.


Section EngineRuns.

Context {Raw S : Type} (svc : Service Raw S).
Variables (lastSync : Z) (lastSyncId : string).

Lemma count_fetches_quiet_tail (evs : list Event) :
  Forall (fun ev => is_fetch ev = false) evs -> count_fetches evs = 0%nat.
Proof.
  induction 1 as [|ev evs Hev _ IH]; [reflexivity|].
  unfold count_fetches in *. rewrite filter_cons.
  destruct (decide (is_fetch ev = true)); [congruence|exact IH].
Qed.

Lemma count_fetches_tail (l evs : list Event) :
  Forall (fun ev => is_fetch ev = false) evs ->
  count_fetches (l ++ evs) = count_fetches l.
Proof.
  intros H. rewrite count_fetches_app, (count_fetches_quiet_tail evs H). lia.
Qed.

(** What follows the loop, [catch] block included, fetches nothing and
    leaves the instance alone. *)
Lemma after_loop (w : World Raw S) (r : result (Locals Raw)) :
  let res := match r with
             | Ok l => match finish svc w l with
                       | (w', Err e) => loadHistory_catch w' e
                       | (w', Ok u) => (w', Ok u)
                       end
             | Err e => loadHistory_catch w e
             end in
  this (fst res) = this w
  /\ count_fetches (log (fst res)) = count_fetches (log w).
Proof.
  assert (Hcatch : forall (w0 : World Raw S) e,
            this (fst (loadHistory_catch w0 e)) = this w0
            /\ count_fetches (log (fst (loadHistory_catch w0 e)))
               = count_fetches (log w0)).
  { intros w0 e. unfold loadHistory_catch. simpl. split; [reflexivity|].
    apply count_fetches_tail. destruct (canceled e); repeat constructor. }
  destruct r as [l|e]; [|apply Hcatch].
  unfold finish. destruct (0 <? length (historyItems l))%nat.
  - destruct (convertHistoryItems (historyItems l)) as [its|e].
    + simpl. split; [reflexivity|].
      rewrite <- app_assoc. apply count_fetches_tail. repeat constructor.
    + destruct (Hcatch (emit w [CallConvertHistoryItems (length (historyItems l))]) e)
        as [Ht Hc].
      split; [exact Ht|]. rewrite Hc. simpl.
      apply count_fetches_tail. repeat constructor.
  - simpl. split; [reflexivity|].
    apply count_fetches_tail. repeat constructor.
Qed.

Lemma loadHistory_unfold fuel n (w : World Raw S) :
  loadHistory svc fuel n lastSync lastSyncId w
  = match history_loop svc fuel lastSync lastSyncId w (initial_locals n w) with
    | None => None
    | Some (w1, r) =>
        Some match r with
             | Ok l => match finish svc w1 l with
                       | (w', Err e) => loadHistory_catch w' e
                       | (w', Ok u) => (w', Ok u)
                       end
             | Err e => loadHistory_catch w1 e
             end
    end.
Proof.
  unfold loadHistory, loadHistory_try.
  destruct (history_loop _ _ _ _ _ _) as [[w1 [l|e]]|]; try reflexivity.
  destruct (finish svc w1 l) as [w2 [u|e]]; reflexivity.
Qed.

(** X16: a call that is fulfilled has called [setData] once, as its
    last call, and the store holds what was passed: a [hasReachedEnd]
    that is the end flag of the service or the watermark flag, and a
    watermark flag that is still set if it was set before. *)
Theorem fulfilled_run_stores_once fuel n (w w' : World Raw S) :
  loadHistory svc fuel n lastSync lastSyncId w = Some (w', Ok tt) ->
  exists evs d,
    log w' = (log w ++ evs ++ [CallSetData d])%list
    /\ Forall (fun ev => is_report ev = false /\ is_setData ev = false) evs
    /\ store w' = d
    /\ hasReachedEnd d
       = hasReachedHistoryEnd (this w') || hasReachedLastSyncDate d
    /\ (hasReachedLastSyncDate (store w) = true ->
        hasReachedLastSyncDate d = true).
Proof.
  rewrite loadHistory_unfold.
  destruct (history_loop _ _ _ _ _ _) as [[w1 [l|e]]|] eqn:E; try discriminate.
  - destruct (history_loop_world _ _ _ _ _ _ _ _ E) as (_ & evs & Hl & Hq).
    destruct (history_loop_end _ _ _ _ _ _ _ _ E) as [He Hs].
    unfold finish. destruct (0 <? length (historyItems l))%nat.
    + destruct (convertHistoryItems (historyItems l)) as [its|e]; [|discriminate].
      intros [= <-]. simpl.
      exists (evs ++ [CallConvertHistoryItems (length (historyItems l))])%list.
      eexists. split; [rewrite Hl, <- !app_assoc; reflexivity|].
      split; [apply Forall_app; split; [exact Hq|repeat constructor]|].
      split; [reflexivity|]. simpl. split; [exact He|exact Hs].
    + intros [= <-]. simpl. exists evs. eexists.
      split; [rewrite Hl, <- app_assoc; reflexivity|].
      split; [exact Hq|]. split; [reflexivity|]. simpl.
      split; [exact He|exact Hs].
Qed.

(** X17: without a watermark ([lastSync <= 0] or an empty
    [lastSyncId]) a pass accepts its whole page: nothing goes to the
    leftover buffer, [hasReachedLastSyncDate] stays as it is, and
    [isNewHistoryItem] has no say. *)
Theorem no_watermark_accepts_page (w w1 : World Raw S) (l : Locals Raw)
    (page : list Raw) :
  (lastSync <= 0)%Z \/ lastSyncId = "" ->
  source_page svc w = (w1, Ok page) ->
  loop_body svc lastSync lastSyncId w l
  = (w1, Ok {| itemsToLoad := (itemsToLoad l - Z.of_nat (length page))%Z;
               l_hasReachedEnd :=
                 hasReachedHistoryEnd (this w1) || l_hasReachedLastSyncDate l;
               l_hasReachedLastSyncDate := l_hasReachedLastSyncDate l;
               historyItems := (historyItems l ++ page)%list |}).
Proof.
  intros Hno Hsrc.
  assert (Hw : watermark_set lastSync lastSyncId = false).
  { unfold watermark_set. destruct Hno as [Hle| ->].
    - apply Z.ltb_ge in Hle. rewrite Hle. reflexivity.
    - apply andb_false_r. }
  unfold loop_body. rewrite Hsrc. unfold process_page.
  destruct page as [|x page].
  - simpl. rewrite app_nil_r, Z.sub_0_r. reflexivity.
  - change (0 <? length (x :: page))%nat with true. cbv iota.
    rewrite (filter_page_no_watermark svc lastSync lastSyncId _ Hw). reflexivity.
Qed.

Lemma single_pass (w : World Raw S) (l : Locals Raw) :
  (forall w1 l1, loop_body svc lastSync lastSyncId w l = (w1, Ok l1) ->
                 loop_again l1 = false) ->
  forall fuel,
    history_loop svc (Datatypes.S fuel) lastSync lastSyncId w l
    = Some (loop_body svc lastSync lastSyncId w l).
Proof.
  intros H fuel. simpl.
  destruct (loop_body svc lastSync lastSyncId w l) as [w1 [l1|e]] eqn:E;
    [|reflexivity].
  rewrite (H w1 l1 eq_refl). reflexivity.
Qed.

(** X18: once the store says that the watermark was reached, a call
    makes one pass and no more, whatever the target; if it is fulfilled
    it stores both flags set again: [loadHistory] never takes the
    watermark flag back. *)
Theorem watermark_flag_is_sticky n (w : World Raw S) :
  hasReachedLastSyncDate (store w) = true ->
  exists res,
    (forall fuel,
       loadHistory svc (Datatypes.S fuel) n lastSync lastSyncId w = Some res)
    /\ (count_fetches (log (fst res)) <= Datatypes.S (count_fetches (log w)))%nat
    /\ (snd res = Ok tt ->
        hasReachedLastSyncDate (store (fst res)) = true
        /\ hasReachedEnd (store (fst res)) = true).
Proof.
  intros Hflag.
  assert (Hone : forall fuel,
            history_loop svc (Datatypes.S fuel) lastSync lastSyncId w
              (initial_locals n w)
            = Some (loop_body svc lastSync lastSyncId w (initial_locals n w))).
  { apply single_pass. intros w1 l1 Hb.
    apply (pass_flag_is_sticky svc lastSync lastSyncId _ _ _ _ Hb Hflag). }
  destruct (loadHistory svc 1 n lastSync lastSyncId w) as [res|] eqn:Hres.
  2:{ rewrite loadHistory_unfold, Hone in Hres.
      destruct (loop_body _ _ _ _ _) as [w1 r]. discriminate. }
  exists res. split; [|split].
  - intros fuel. rewrite <- Hres, !loadHistory_unfold, !Hone. reflexivity.
  - rewrite loadHistory_unfold, Hone in Hres.
    pose proof (loop_body_log svc lastSync lastSyncId w (initial_locals n w)) as Hlog.
    rewrite source_page_log in Hlog.
    destruct (loop_body _ _ _ _ _) as [w1 r]. injection Hres as <-.
    destruct (after_loop w1 r) as [_ Hc]. rewrite Hc. simpl in Hlog.
    rewrite Hlog, count_fetches_app.
    destruct (0 <? _)%nat; [change (count_fetches []) with 0%nat; lia|].
    destruct (hasReachedHistoryEnd (this w));
      [change (count_fetches []) with 0%nat; lia|].
    change (count_fetches [CallLoadHistoryItems]) with 1%nat. lia.
  - destruct res as [w' [[]|e]]; [|discriminate]. intros _. simpl.
    destruct (fulfilled_run_stores_once _ _ _ _ Hres)
      as (evs & d & _ & _ & Hst & He & Hs).
    rewrite Hst, He, (Hs Hflag). split; [reflexivity|apply orb_true_r].
Qed.

(** X19: once the service has raised its end flag, a call fetches
    nothing: it makes one pass over what the leftover buffer holds, if
    anything, leaves the flag raised, and stores [hasReachedEnd] set
    if it is fulfilled. *)
Theorem ended_service_is_not_fetched n (w : World Raw S) :
  hasReachedHistoryEnd (this w) = true ->
  exists res,
    (forall fuel,
       loadHistory svc (Datatypes.S fuel) n lastSync lastSyncId w = Some res)
    /\ count_fetches (log (fst res)) = count_fetches (log w)
    /\ hasReachedHistoryEnd (this (fst res)) = true
    /\ subclass (this (fst res)) = subclass (this w)
    /\ (snd res = Ok tt -> hasReachedEnd (store (fst res)) = true).
Proof.
  intros Hend.
  assert (Hsrc : exists page,
            source_page svc w
            = (match leftoverHistoryItems (this w) with
               | [] => w
               | _ :: _ => set_leftover w []
               end, Ok page)).
  { unfold source_page. destruct (leftoverHistoryItems (this w)); simpl.
    - rewrite Hend. simpl. eauto.
    - eauto. }
  destruct Hsrc as [page Hsrc].
  assert (Hbody : exists w1 l1,
            loop_body svc lastSync lastSyncId w (initial_locals n w) = (w1, Ok l1)
            /\ loop_again l1 = false
            /\ hasReachedHistoryEnd (this w1) = true
            /\ subclass (this w1) = subclass (this w)
            /\ log w1 = log w).
  { unfold loop_body. rewrite Hsrc.
    pose proof (process_page_world svc lastSync lastSyncId page
                  (match leftoverHistoryItems (this w) with
                   | [] => w
                   | _ :: _ => set_leftover w []
                   end) (initial_locals n w)) as (_ & Hl & Hh & Hs).
    destruct (process_page _ _ _ _ _ _) as [w2 l2] eqn:Hp. simpl in *.
    exists w2, l2. split; [reflexivity|].
    assert (Hh2 : hasReachedHistoryEnd (this w2) = true).
    { rewrite Hh. destruct (leftoverHistoryItems (this w)); exact Hend. }
    split.
    - assert (He : loop_body svc lastSync lastSyncId w (initial_locals n w)
                   = (w2, Ok l2)).
      { unfold loop_body. rewrite Hsrc, Hp. reflexivity. }
      destruct (loop_body_accepts svc lastSync lastSyncId _ _ _ _ He) as [Hend2 _].
      unfold loop_again. rewrite Hend2, Hh2. reflexivity.
    - split; [exact Hh2|]. split.
      + rewrite Hs. destruct (leftoverHistoryItems (this w)); reflexivity.
      + rewrite Hl. destruct (leftoverHistoryItems (this w)); reflexivity. }
  destruct Hbody as (w1 & l1 & Hb & Ha & Hh & Hs & Hl).
  assert (Hone : forall fuel,
            history_loop svc (Datatypes.S fuel) lastSync lastSyncId w
              (initial_locals n w) = Some (w1, Ok l1)).
  { intros fuel. simpl. rewrite Hb, Ha. reflexivity. }
  destruct (loadHistory svc 1 n lastSync lastSyncId w) as [res|] eqn:Hres.
  2:{ rewrite loadHistory_unfold, Hone in Hres. discriminate. }
  exists res. split.
  { intros fuel. rewrite <- Hres, !loadHistory_unfold, !Hone. reflexivity. }
  pose proof Hres as Hres'. rewrite loadHistory_unfold, Hone in Hres'.
  injection Hres' as Hres'.
  destruct (after_loop w1 (Ok l1)) as [Ht Hc]. rewrite Hres' in Ht, Hc.
  split; [rewrite Hc, Hl; reflexivity|].
  split; [rewrite Ht; exact Hh|]. split; [rewrite Ht; exact Hs|].
  destruct res as [w' [[]|e]]; [|discriminate]. intros _. simpl.
  destruct (fulfilled_run_stores_once _ _ _ _ Hres)
    as (evs & d & _ & _ & Hst & He & _).
  simpl in Ht. rewrite Hst, He, Ht, Hh. reflexivity.
Qed.

(** X20: through the loop the target goes down by exactly what was
    accumulated, entries are only ever appended, and a loop that ends
    without [hasReachedEnd] has accumulated at least as many entries
    as were asked for. *)
Theorem target_accounts_for_entries fuel :
  forall (w w' : World Raw S) (l l' : Locals Raw),
    history_loop svc fuel lastSync lastSyncId w l = Some (w', Ok l') ->
    (exists more,
       historyItems l' = (historyItems l ++ more)%list
       /\ itemsToLoad l' = (itemsToLoad l - Z.of_nat (length more))%Z)
    /\ (l_hasReachedEnd l' = false ->
        (itemsToLoad l + Z.of_nat (length (historyItems l))
         <= Z.of_nat (length (historyItems l')))%Z).
Proof.
  assert (Hgrow : forall fuel0 (w w' : World Raw S) (l l' : Locals Raw),
            history_loop svc fuel0 lastSync lastSyncId w l = Some (w', Ok l') ->
            exists more,
              historyItems l' = (historyItems l ++ more)%list
              /\ itemsToLoad l' = (itemsToLoad l - Z.of_nat (length more))%Z).
  { induction fuel0 as [|fuel0 IH]; intros w w' l l'; simpl; [discriminate|].
    destruct (loop_body svc lastSync lastSyncId w l) as [w1 [l1|e]] eqn:E;
      [|discriminate].
    destruct (loop_body_accepts svc lastSync lastSyncId _ _ _ _ E)
      as (_ & acc & Hh & Hn & _).
    destruct (loop_again l1).
    - intros H. destruct (IH _ _ _ _ H) as (more & Hh' & Hn').
      exists (acc ++ more)%list. rewrite Hh', Hh, <- app_assoc.
      split; [reflexivity|]. rewrite Hn', Hn, length_app. lia.
    - intros [= <- <-]. exists acc. auto. }
  intros w w' l l' H. split; [eapply Hgrow, H|].
  destruct (Hgrow _ _ _ _ _ H) as (more & Hh & Hn).
  destruct (history_loop_passes svc lastSync lastSyncId _ _ _ _ _ H)
    as (_ & _ & _ & _ & _ & _ & Ha).
  intros He. unfold loop_again in Ha. rewrite He in Ha. simpl in Ha.
  apply Z.ltb_ge in Ha. rewrite Hh, length_app. lia.
Qed.

End EngineRuns.

Lemma fulfilled_run_stores_once_run :
  exists evs d,
    log Sample.after_scenario = (log Fixture.feed ++ evs ++ [CallSetData d])%list
    /\ store Sample.after_scenario = d
    /\ hasReachedEnd d = true.
Proof.
  assert (Hrun : loadHistory Fixture.paged 5 10 3 "e3" Fixture.feed
                 = Some (Sample.after_scenario, Ok tt))
    by (vm_compute; reflexivity).
  destruct (fulfilled_run_stores_once Fixture.paged 3 "e3" 5 10
              Fixture.feed Sample.after_scenario Hrun)
    as (evs & d & Hl & _ & Hs & _).
  exists evs, d. split; [exact Hl|]. split; [exact Hs|].
  rewrite <- Hs. reflexivity.
Defined.

Lemma no_watermark_accepts_page_run :
  loop_body Fixture.paged 0 "e3" Fixture.feed (Fixture.locals0 2)
  = (Fixture.fetched, Ok Fixture.overshot).
Proof.
  assert (Hle : (0 <= 0)%Z \/ "e3" = "") by (left; reflexivity).
  rewrite (no_watermark_accepts_page Fixture.paged 0 "e3" Fixture.feed
             Fixture.fetched (Fixture.locals0 2)
             [Fixture.e5; Fixture.e4; Fixture.e3] Hle eq_refl).
  reflexivity.
Defined.

Lemma watermark_flag_is_sticky_run :
  exists res,
    (forall fuel,
       loadHistory Fixture.paged (Datatypes.S fuel) 10 3 "e3" Sample.reached
       = Some res)
    /\ (count_fetches (log (fst res))
        <= Datatypes.S (count_fetches (log Sample.reached)))%nat.
Proof.
  destruct (watermark_flag_is_sticky Fixture.paged 3 "e3" 10 Sample.reached eq_refl)
    as (res & H1 & H2 & _).
  exists res. split; assumption.
Defined.

Lemma ended_service_is_not_fetched_run :
  exists res,
    (forall fuel,
       loadHistory Fixture.paged (Datatypes.S fuel) 10 0 "" Sample.ended
       = Some res)
    /\ count_fetches (log (fst res)) = count_fetches (log Sample.ended).
Proof.
  destruct (ended_service_is_not_fetched Fixture.paged 0 "" 10 Sample.ended eq_refl)
    as (res & H1 & H2 & _).
  exists res. split; assumption.
Defined.

Lemma target_accounts_for_entries_run :
  exists more,
    historyItems Fixture.overshot
    = (historyItems (Fixture.locals0 2) ++ more)%list
    /\ itemsToLoad Fixture.overshot
       = (itemsToLoad (Fixture.locals0 2) - Z.of_nat (length more))%Z.
Proof.
  apply (target_accounts_for_entries Fixture.paged 0 "" 1
           Fixture.feed Fixture.fetched (Fixture.locals0 2) Fixture.overshot).
  reflexivity.
Defined.

(** ** The options page *)

Section OptionsFacts.

Import OptionsPage.

Lemma obj_get_set {V} (k k' : string) (v : V) (o : list (string * V)) :
  obj_get k (obj_set k' v o)
  = if String.eqb k' k then Some v else obj_get k o.
Proof.
  induction o as [|[k0 v0] r IH]; simpl.
  - destruct (String.eqb k' k); reflexivity.
  - destruct (String.eqb k0 k') eqn:E0; simpl.
    + apply String.eqb_eq in E0. subst k0.
      destruct (String.eqb k' k); reflexivity.
    + rewrite IH. destruct (String.eqb k0 k) eqn:E1; [|reflexivity].
      apply String.eqb_eq in E1. subst k0. rewrite String.eqb_sym, E0.
      reflexivity.
Qed.

Lemma obj_get_none {V} (k : string) (o : list (string * V)) :
  obj_get k o = None <-> ~ In k (map fst o).
Proof.
  induction o as [|[k0 v0] r IH]; simpl; [tauto|].
  destruct (String.eqb k0 k) eqn:E.
  - apply String.eqb_eq in E. split; [discriminate|]. intros H. tauto.
  - apply String.eqb_neq in E. rewrite IH. tauto.
Qed.

Lemma obj_set_present {V} (k : string) (v : V) (o : list (string * V)) :
  In k (map fst o) -> map fst (obj_set k v o) = map fst o.
Proof.
  induction o as [|[k0 v0] r IH]; simpl; [tauto|].
  destruct (String.eqb k0 k) eqn:E; [reflexivity|].
  apply String.eqb_neq in E. intros [H|H]; [congruence|].
  simpl. rewrite (IH H). reflexivity.
Qed.

Lemma obj_set_absent {V} (k : string) (v : V) (o : list (string * V)) :
  obj_get k o = None -> obj_set k v o = (o ++ [(k, v)])%list.
Proof.
  induction o as [|[k0 v0] r IH]; simpl; [reflexivity|].
  destruct (String.eqb k0 k); [discriminate|].
  intros H. rewrite (IH H). reflexivity.
Qed.

Lemma obj_set_entries {V} (P : string * V -> Prop) (k : string) (v : V)
    (o : list (string * V)) :
  P (k, v) -> Forall P o -> Forall P (obj_set k v o).
Proof.
  intros Hv. induction 1 as [|[k0 v0] r H0 Hr IH]; simpl.
  - repeat constructor. exact Hv.
  - destruct (String.eqb k0 k) eqn:E.
    + apply String.eqb_eq in E. subst k0. constructor; assumption.
    + constructor; assumption.
Qed.

Lemma saved_lookup (opts : list (string * OptionData)) :
  well_keyed opts ->
  forall (m : gmap string (option bool)) k,
    foldl (fun m o => <[property_key (id o) := value o]> m) m (obj_values opts)
    !! k
    = match obj_get k opts with
      | Some o => Some (value o)
      | None => m !! k
      end.
Proof.
  unfold well_keyed, obj_values.
  induction opts as [|[k0 o0] r IH]; intros [Hnd Hid] m k; simpl; [reflexivity|].
  inversion Hnd as [|? ? Hnot Hnd']. inversion Hid as [|? ? Hk0 Hid']. subst.
  simpl in Hk0. rewrite (IH (conj Hnd' Hid')), Hk0. simpl.
  destruct (String.eqb k0 k) eqn:E.
  - apply String.eqb_eq in E. subst k0.
    rewrite list_elem_of_In in Hnot. apply obj_get_none in Hnot.
    rewrite Hnot. apply lookup_insert_eq.
  - apply String.eqb_neq in E.
    destruct (obj_get k r); [reflexivity|]. apply lookup_insert_ne, E.
Qed.

(** X21: the options after a change hold the changed entry under the
    id of the event and every other entry as it was; when the id names
    an entry, the entries keep their names and their order, and the
    dictionary stays keyed by the ids of its entries. *)
Theorem changed_options_lookup (content : Content) (data_id : string)
    (checked : bool) :
  (forall k,
     obj_get k (changed_options content data_id checked)
     = if String.eqb data_id k
       then Some (with_value (obj_get data_id (options content)) checked)
       else obj_get k (options content))
  /\ (forall o, obj_get data_id (options content) = Some o ->
        map fst (changed_options content data_id checked)
        = map fst (options content)
        /\ (well_keyed (options content) ->
            well_keyed (changed_options content data_id checked))).
Proof.
  unfold changed_options. split; [intros k; apply obj_get_set|].
  intros o Ho.
  assert (Hin : In data_id (map fst (options content))).
  { destruct (in_dec string_dec data_id (map fst (options content)))
      as [H|H]; [exact H|].
    apply obj_get_none in H. congruence. }
  split; [apply obj_set_present, Hin|].
  intros [Hnd Hid]. split.
  - rewrite (obj_set_present _ _ _ Hin). exact Hnd.
  - apply obj_set_entries; [|exact Hid]. rewrite Ho. simpl.
    assert (Hall : forall opts k x,
              Forall (fun kv : string * OptionData => id (snd kv) = Some (fst kv)) opts ->
              obj_get k opts = Some x -> id x = Some k).
    { induction opts as [|[k0 v0] r IH]; simpl; [discriminate|].
      intros k x Hf. inversion Hf as [|? ? Hk0 Hr]. subst.
      destruct (String.eqb k0 k) eqn:E.
      - apply String.eqb_eq in E. subst k0. intros [= <-]. exact Hk0.
      - apply IH, Hr. }
    apply (Hall _ _ _ Hid Ho).
Qed.

(** X22: when the dictionary is keyed by the ids of its entries and
    the id of the event names one of them, what goes to the storage is
    the checked state of the event under that id and, under every
    other id, the value the entry had. *)
Theorem saved_options (content : Content) (data_id : string)
    (checked : bool) (o : OptionData) :
  well_keyed (options content) ->
  obj_get data_id (options content) = Some o ->
  forall k,
    optionsToSave (changed_options content data_id checked) !! k
    = if String.eqb data_id k then Some (Some checked)
      else value <$> obj_get k (options content).
Proof.
  intros Hwk Ho k.
  destruct (changed_options_lookup content data_id checked) as [Hget Hkeep].
  destruct (Hkeep o Ho) as [_ Hwk']. unfold optionsToSave.
  rewrite (saved_lookup _ (Hwk' Hwk)), Hget, lookup_empty.
  destruct (String.eqb data_id k).
  - rewrite Ho. reflexivity.
  - destruct (obj_get k (options content)); reflexivity.
Qed.

(** X23: a change for an id the dictionary does not hold adds an entry
    that has only a value: it asks for no permission and is saved
    under the property name [undefined]. *)
Theorem unknown_option_is_saved_as_undefined (content : Content)
    (data_id : string) (checked : bool) :
  obj_get data_id (options content) = None ->
  changed_options content data_id checked
  = (options content
       ++ [(data_id, {| id := None; value := Some checked;
                        permissions := None; origins := None |})])%list
  /\ optionsToSave (changed_options content data_id checked) !! "undefined"
     = Some (Some checked)
  /\ forall sf df,
       exists rest,
         snd (onOptionChange content data_id checked sf df)
         = StorageSet (optionsToSave (changed_options content data_id checked))
           :: rest.
Proof.
  intros Hnone.
  assert (Hch : changed_options content data_id checked
                = (options content
                     ++ [(data_id, {| id := None; value := Some checked;
                                      permissions := None; origins := None |})])%list).
  { unfold changed_options. rewrite Hnone. apply obj_set_absent, Hnone. }
  split; [exact Hch|]. split.
  - rewrite Hch. unfold optionsToSave, obj_values.
    rewrite map_app, foldl_app. simpl. apply lookup_insert_eq.
  - intros sf df. unfold onOptionChange. rewrite Hnone. simpl.
    destruct sf; [|destruct df]; eexists; reflexivity.
Qed.

(** X24: the permission call comes first and does not wait for the
    save: whether the storage accepts the options or not, an entry
    with permissions or origins has its permissions requested when the
    event checks it and removed when it unchecks it, and the options
    go to the storage right after; an entry with neither causes no
    permission call. *)
Theorem permissions_precede_save (content : Content) (data_id : string)
    (checked : bool) (sf df : option Error) (o : OptionData) :
  obj_get data_id (options content) = Some o ->
  exists rest,
    snd (onOptionChange content data_id checked sf df)
    = ((if present (permissions o) || present (origins o)
        then [if checked
              then PermissionsRequest (nullish (permissions o) [])
                     (nullish (origins o) [])
              else PermissionsRemove (nullish (permissions o) [])
                     (nullish (origins o) [])]
        else [])
       ++ StorageSet (optionsToSave (changed_options content data_id checked))
          :: rest)%list.
Proof.
  intros Ho. unfold onOptionChange. rewrite Ho.
  unfold permission_calls. simpl.
  destruct (present (permissions o) || present (origins o)), checked, sf, df;
    simpl; eexists; reflexivity.
Qed.

(** X25: the component takes the changed options only when the storage
    accepted them.  A rejected save leaves its content as it was and
    shows the failure; an accepted one sets the changed options with
    [isLoading] false; and if showing the success then fails, the
    failure of the save is logged and shown although the options were
    saved and set. *)
Theorem content_follows_storage (content : Content) (data_id : string)
    (checked : bool) (sf df : option Error) :
  let changed := {| isLoading := false;
                    options := changed_options content data_id checked |} in
  let failed e :=
    [LogError "Failed to save option." e; Snackbar "saveOptionFailed" "error"] in
  let '(content', events) := onOptionChange content data_id checked sf df in
  match sf, df with
  | Some e, _ =>
      content' = content
      /\ Forall (fun ev => forall c, ev <> SetContent c) events
      /\ exists before, events = (before ++ failed e)%list
  | None, None =>
      content' = changed
      /\ exists before,
           events
           = (before ++ [SetContent changed;
                         Snackbar "saveOptionSuccess" "success"])%list
  | None, Some e =>
      content' = changed
      /\ exists before,
           events
           = (before ++ [SetContent changed;
                         Snackbar "saveOptionSuccess" "success"]
                ++ failed e)%list
  end.
Proof.
  unfold onOptionChange.
  destruct sf as [e|]; [|destruct df as [e|]]; simpl.
  - split; [reflexivity|]. split; [|eexists; reflexivity].
    apply Forall_app. split.
    + apply Forall_app. split; [|repeat constructor; discriminate].
      unfold permission_calls.
      destruct (_ || _); [destruct (truthy_flag _)|];
        repeat constructor; discriminate.
    + repeat constructor; discriminate.
  - split; [reflexivity|]. eexists. reflexivity.
  - split; [reflexivity|]. eexists. reflexivity.
Qed.

End OptionsFacts.

Lemma changed_options_lookup_run :
  map fst (OptionsPage.changed_options Sample.page "allowRollbar" true)
  = ["allowRollbar"; "showNotifications"].
Proof.
  destruct (changed_options_lookup Sample.page "allowRollbar" true) as [_ H].
  destruct (H (snd (Sample.toggle "allowRollbar" false (Some ["tabs"]))) eq_refl)
    as [Hk _].
  rewrite Hk. reflexivity.
Defined.

Lemma saved_options_run :
  OptionsPage.optionsToSave
    (OptionsPage.changed_options Sample.page "allowRollbar" true)
  !! "showNotifications"
  = Some (Some true).
Proof.
  assert (Hwk : OptionsPage.well_keyed (OptionsPage.options Sample.page)).
  { split; [|repeat constructor].
    apply (bool_decide_unpack _). vm_compute. exact I. }
  rewrite (saved_options Sample.page "allowRollbar" true
             (snd (Sample.toggle "allowRollbar" false (Some ["tabs"])))
             Hwk eq_refl "showNotifications").
  reflexivity.
Defined.

Lemma unknown_option_is_saved_as_undefined_run :
  OptionsPage.optionsToSave
    (OptionsPage.changed_options Sample.page "missing" true) !! "undefined"
  = Some (Some true).
Proof.
  apply (unknown_option_is_saved_as_undefined Sample.page "missing" true eq_refl).
Defined.

Lemma permissions_precede_save_run :
  exists rest,
    snd (OptionsPage.onOptionChange Sample.page "allowRollbar" true
           (Some Fixture.http500) None)
    = OptionsPage.PermissionsRequest ["tabs"] []
      :: OptionsPage.StorageSet
           (OptionsPage.optionsToSave
              (OptionsPage.changed_options Sample.page "allowRollbar" true))
      :: rest.
Proof.
  apply (permissions_precede_save Sample.page "allowRollbar" true
           (Some Fixture.http500) None
           (snd (Sample.toggle "allowRollbar" false (Some ["tabs"]))) eq_refl).
Defined.
